(** * A consistent-hashing ring: shallow embedding of [consistent_hash.go]

    The development follows the Go source function by function.

    - [uint32] and [int] values are integers in [Z]; positions are only ever
      compared, never added, so no wrap-around arithmetic occurs.
    - Go strings are byte strings: [string].
    - [map[uint32]string] and [map[string]consistentNode] are [gmap]s.  A nil
      Go map reads like the empty map ([len], lookup and [delete] agree), and
      [AddWithVirtualNode] allocates both maps before its first write, so nil
      and empty are identified.
    - The [Node] interface is a type class with the single method [Key]; an
      interface value may be nil, hence [option T] wherever the source holds
      a [Node].
    - The ring is passed explicitly: every method takes the ring and returns
      the ring it leaves behind.  A run-time panic is the outcome [Panicked].
      The [RWMutex] serialises the methods; each method body is one atomic
      step here. *)

From Stdlib Require Import Ascii String DecimalString.
From stdpp Require Import gmap strings list fin_maps sorting.

Local Open Scope Z_scope.

(** A [uint32] is an integer; [is_uint32] is its range. *)
Abbreviation uint32 := Z (only parsing).

Definition is_uint32 (x : Z) : Prop := 0 ≤ x < 2 ^ 32.

(** ** The Go library functions the source calls *)

(** [strconv.Itoa]: the decimal representation of an [int]. *)
Definition Itoa (i : Z) : string := NilZero.string_of_int (Z.to_int i).

(** [hash/crc32.ChecksumIEEE]: CRC-32 with the reflected IEEE polynomial
    [0xEDB88320], initial value and final xor [0xFFFFFFFF], computed bit by
    bit (the library's table-driven code computes the same function). *)
Module crc32.

Definition IEEE : Z := 0xEDB88320.

Definition shift1 (crc : Z) : Z :=
  if Z.testbit crc 0 then Z.lxor (Z.shiftr crc 1) IEEE else Z.shiftr crc 1.

Definition update_byte (crc : Z) (b : ascii) : Z :=
  Nat.iter 8 shift1 (Z.lxor crc (Z.of_N (N_of_ascii b))).

Fixpoint update (crc : Z) (s : string) : Z :=
  match s with
  | EmptyString => crc
  | String b s' => update (update_byte crc b) s'
  end.

Definition ChecksumIEEE (s : string) : Z :=
  Z.lxor (update 0xFFFFFFFF s) 0xFFFFFFFF.

End crc32.

(** [sort.Search n f]: the binary search of Go's [sort] package,
<<
    i, j := 0, n
    for i < j {
        h := int(uint(i+j) >> 1)
        if !f(h) { i = h + 1 } else { j = h }
    }
    return i
>>
    The loop runs at most [n] times because [j - i] decreases at every
    iteration; [search_loop] takes that bound as its first argument. *)
Fixpoint search_loop (steps : nat) (f : Z → bool) (i j : Z) : Z :=
  match steps with
  | O => i
  | S steps' =>
      if bool_decide (i < j) then
        let h := Z.shiftr (i + j) 1 in
        if negb (f h) then search_loop steps' f (h + 1) j
        else search_loop steps' f i h
      else i
  end.

Definition Search (n : Z) (f : Z → bool) : Z :=
  search_loop (Z.to_nat n) f 0 n.

(** [sort.Slice] with the comparison [a[i] < a[j]] on integers: the result is
    the ascending arrangement of the slice, whatever algorithm produces it. *)
Definition sort_Slice (l : list Z) : list Z := merge_sort Z.le l.

(** Indexing a slice with an [int]: out of range is a run-time panic,
    rendered as [None]. *)
Definition index (l : list Z) (i : Z) : option Z :=
  if bool_decide (0 ≤ i < Z.of_nat (length l)) then l !! Z.to_nat i else None.

(** The closure [func(i int) bool { return s[i] >= v }] handed to
    [sort.Search]; [Search] only probes indices inside the slice. *)
Definition at_least (s : list Z) (v : Z) (i : Z) : bool :=
  match index s i with
  | Some x => bool_decide (v ≤ x)
  | None => false
  end.

(** ** The data model *)

(** [type Node interface { Key() string }] *)
Class Node (T : Type) := Key : T → string.

(** The errors the methods return, with the message the source builds. *)
Inductive error :=
  | NodeIsNil
  | BadVirtualNodeCount
  | AlreadyExisted (key : string)
  | HashCollision (key : string)
  | NotExist (key : string)
  | NodeSizeIsZero.

Definition message (e : error) : string :=
  match e with
  | NodeIsNil => "node is nil"
  | BadVirtualNodeCount => "virtualNodeCount can't less 1"
  | AlreadyExisted key => "node " +:+ key +:+ " already exised"
  | HashCollision key => "node " +:+ key +:+ " hash collision"
  | NotExist key => "node " +:+ key +:+ " not exist"
  | NodeSizeIsZero => "node size is 0"
  end.

(** What a call does: it returns, or it panics. *)
Inductive outcome (A : Type) :=
  | Returned (a : A)
  | Panicked.
Arguments Returned {A} a.
Arguments Panicked {A}.

Section Ring.

Context {T : Type} `{Node T}.

Record consistentNode := {
  node : option T;
  virtualNodes : list uint32
}.

(** The zero value a map lookup yields for a missing key. *)
Definition zeroNode : consistentNode := {| node := None; virtualNodes := [] |}.

Record ConsistentHash := {
  hashSortedNodes : list uint32;
  circle : gmap Z string;
  nodes : gmap string consistentNode;
  hash : option (string → uint32)
}.

Definition NewConsistentHash : ConsistentHash :=
  {| hashSortedNodes := []; circle := ∅; nodes := ∅; hash := None |}.

Definition NewConsistentWithCustomHash (h : option (string → uint32)) : ConsistentHash :=
  {| hashSortedNodes := []; circle := ∅; nodes := ∅; hash := h |}.

(** [hashKey] calls the stored function; calling a nil function panics. *)
Definition hashKey (c : ConsistentHash) (key : string) : outcome uint32 :=
  match hash c with
  | Some h => Returned (h key)
  | None => Panicked
  end.

(** *** AddWithVirtualNode *)

(** The inner loop [for j := 0; j < 3; j++]: the first candidate among the
    retry counters [js] that is free in [circ]. *)
Fixpoint try_replica (h : string → uint32) (key : string) (i : Z)
    (circ : gmap Z string) (js : list Z) : option uint32 :=
  match js with
  | [] => None
  | j :: js' =>
      let k := h (key +:+ Itoa i +:+ Itoa j) in
      match circ !! k with
      | None => Some k
      | Some _ => try_replica h key i circ js'
      end
  end.

(** The outer loop over the replica indices [ixs].  Every placed position is
    written to [circle] at once; the local slice [virtualNodes] collects
    them.  On a collision the loop returns with the map as it stands. *)
Fixpoint place_replicas (h : string → uint32) (key : string) (ixs : list Z)
    (circ : gmap Z string) (vns : list uint32)
    : gmap Z string * option (list uint32) :=
  match ixs with
  | [] => (circ, Some vns)
  | i :: ixs' =>
      match try_replica h key i circ (seqZ 0 3) with
      | None => (circ, None)
      | Some k => place_replicas h key ixs' (<[k := key]> circ) (vns ++ [k])
      end
  end.

Definition AddWithVirtualNode (c : ConsistentHash) (n : option T)
    (virtualNodeCount : Z) : ConsistentHash * option error :=
  match n with
  | None => (c, Some NodeIsNil)
  | Some nd =>
      if bool_decide (virtualNodeCount < 1) then (c, Some BadVirtualNodeCount)
      else
        let h := default crc32.ChecksumIEEE (hash c) in
        match nodes c !! Key nd with
        | Some _ =>
            ({| hashSortedNodes := hashSortedNodes c; circle := circle c;
                nodes := nodes c; hash := Some h |},
             Some (AlreadyExisted (Key nd)))
        | None =>
            match place_replicas h (Key nd) (seqZ 0 virtualNodeCount) (circle c) [] with
            | (circ, None) =>
                ({| hashSortedNodes := hashSortedNodes c; circle := circ;
                    nodes := nodes c; hash := Some h |},
                 Some (HashCollision (Key nd)))
            | (circ, Some vns) =>
                ({| hashSortedNodes := sort_Slice (hashSortedNodes c ++ vns);
                    circle := circ;
                    nodes := <[Key nd := {| node := Some nd; virtualNodes := vns |}]> (nodes c);
                    hash := Some h |},
                 None)
            end
        end
  end.

Definition Add (c : ConsistentHash) (n : option T) : ConsistentHash * option error :=
  AddWithVirtualNode c n 1.

(** *** Remove *)

(** The second loop of [Remove]: each position is located by binary search
    and cut out of the slice.  [s[i+1:]] panics when [i = len(s)]. *)
Fixpoint cut_positions (vns : list uint32) (s : list uint32) : option (list uint32) :=
  match vns with
  | [] => Some s
  | v :: vns' =>
      let i := Search (Z.of_nat (length s)) (at_least s v) in
      if bool_decide (i < Z.of_nat (length s)) then
        cut_positions vns' (take (Z.to_nat i) s ++ drop (Z.to_nat (i + 1)) s)
      else None
  end.

Definition Remove (c : ConsistentHash) (n : option T)
    : outcome (ConsistentHash * option error) :=
  match n with
  | None => Panicked
  | Some nd =>
      match nodes c !! Key nd with
      | None => Returned (c, Some (NotExist (Key nd)))
      | Some cNode =>
          match cut_positions (virtualNodes cNode) (hashSortedNodes c) with
          | None => Panicked
          | Some s =>
              Returned
                ({| hashSortedNodes := s;
                    circle := foldl (λ m v, delete v m) (circle c) (virtualNodes cNode);
                    nodes := delete (Key nd) (nodes c);
                    hash := hash c |},
                 None)
          end
      end
  end.

(** *** GetNode *)

Definition getPosition (c : ConsistentHash) (hv : uint32) : Z :=
  let len := Z.of_nat (length (hashSortedNodes c)) in
  let i := Search len (at_least (hashSortedNodes c) hv) in
  if bool_decide (i < len) then
    if bool_decide (i = len - 1) then 0 else i
  else len - 1.

Definition GetNode (c : ConsistentHash) (key : string)
    : outcome (option T * option error) :=
  if bool_decide (size (nodes c) = 0%nat) then Returned (None, Some NodeSizeIsZero)
  else
    match hashKey c key with
    | Panicked => Panicked
    | Returned hv =>
        match index (hashSortedNodes c) (getPosition c hv) with
        | None => Panicked
        | Some p =>
            Returned
              (node (default zeroNode (nodes c !! default "" (circle c !! p))),
               None)
        end
    end.

End Ring.

Arguments consistentNode T : clear implicits.
Arguments ConsistentHash T : clear implicits.

(** ** Ring states and the vocabulary of the specification *)

Section RingStates.

Context {T : Type} `{Node T}.

(** The rings a program can hold: a fresh ring from either constructor,
    then any calls of [AddWithVirtualNode] ([Add] is the case of one
    replica) and [Remove] that return, whatever they return. *)
Inductive reachable : ConsistentHash T → Prop :=
  | reach_new : reachable NewConsistentHash
  | reach_custom h : reachable (NewConsistentWithCustomHash h)
  | reach_add c n v : reachable c → reachable (AddWithVirtualNode c n v).1
  | reach_remove c n c' e :
      reachable c → Remove c n = Returned (c', e) → reachable c'.

(** The rings built without a custom hash on which no [Add] has succeeded
    yet. *)
Inductive unpopulated : ConsistentHash T → Prop :=
  | unpop_new : unpopulated NewConsistentHash
  | unpop_add c n v c' e :
      unpopulated c → AddWithVirtualNode c n v = (c', Some e) → unpopulated c'
  | unpop_remove c n c' e :
      unpopulated c → Remove c n = Returned (c', e) → unpopulated c'.

(** All positions the registry lists, entry by entry. *)
Definition positions_of (m : gmap string (consistentNode T)) : list uint32 :=
  mjoin (virtualNodes <$> (map_to_list m).*2).

(** The sum of the replica counts of the registered nodes. *)
Definition replica_total (m : gmap string (consistentNode T)) : nat :=
  sum_list ((length ∘ virtualNodes) <$> (map_to_list m).*2).

(** What every reachable ring satisfies. *)
Record ring_inv (c : ConsistentHash T) : Prop := {
  inv_sorted : StronglySorted Z.lt (hashSortedNodes c);
  inv_index : hashSortedNodes c ≡ₚ positions_of (nodes c);
  inv_entry : ∀ key cn, nodes c !! key = Some cn →
    (∃ nd, node cn = Some nd ∧ Key nd = key) ∧
    virtualNodes cn ≠ [] ∧
    ∀ p, p ∈ virtualNodes cn → circle c !! p = Some key;
  inv_hash : nodes c = ∅ ∨ is_Some (hash c)
}.

(** The three structures of the specification, without the hash field. *)
Definition same_structures (c1 c2 : ConsistentHash T) : Prop :=
  hashSortedNodes c1 = hashSortedNodes c2 ∧
  circle c1 = circle c2 ∧
  nodes c1 = nodes c2.

(** The ring with another hash function installed. *)
Definition with_hash (h : option (string → uint32)) (c : ConsistentHash T)
    : ConsistentHash T :=
  {| hashSortedNodes := hashSortedNodes c; circle := circle c;
     nodes := nodes c; hash := h |}.

(** The Position Map as replica [i] of a call finds it: the map before the
    call plus the positions [ps] already given to replicas [0 .. i-1]. *)
Definition circle_before (c : ConsistentHash T) (key : string)
    (ps : list uint32) (i : Z) : gmap Z string :=
  foldl (λ m p, <[p := key]> m) (circle c) (take (Z.to_nat i) ps).

End RingStates.

(** The selection rule of the specification, in its words: [p] is the
    smallest entry of the index that is at least [h]. *)
Definition least_at_least (idx : list Z) (h p : Z) : Prop :=
  p ∈ idx ∧ h ≤ p ∧ ∀ q, q ∈ idx → h ≤ q → p ≤ q.

(** "If such a position exists, use it, except when it is the index's own
    last element, in which case ... position 0"; "if no position >= h exists
    at all, wrap to the last element". *)
Inductive selects (idx : list Z) (h : Z) : Z → Prop :=
  | select_found p :
      least_at_least idx h p → last idx ≠ Some p → selects idx h p
  | select_found_last p q :
      least_at_least idx h p → last idx = Some p → head idx = Some q →
      selects idx h q
  | select_none q :
      (∀ p, p ∈ idx → p < h) → last idx = Some q → selects idx h q.

(** ** Sample nodes and rings *)

Module Sample.

Record server := { addr : string }.

#[export] Instance server_Node : Node server := addr.

Definition srv (a : string) : option server := Some {| addr := a |}.

(** A hash that sends every string to position 1. *)
Definition const_hash : string → uint32 := λ _, 1.

(** Three nodes on the default hash, one replica each. *)
Definition abg : ConsistentHash server :=
  (Add (Add (Add NewConsistentHash (srv "alpha")).1 (srv "beta")).1 (srv "gamma")).1.

Definition ab : ConsistentHash server :=
  (Add (Add NewConsistentHash (srv "a")).1 (srv "b")).1.

(** The ring a [Remove] leaves, and the error it returns ([None] when it
    panics). *)
Definition after_remove (c : ConsistentHash server) (n : option server)
    : ConsistentHash server :=
  match Remove c n with
  | Returned (c', _) => c'
  | Panicked => c
  end.

Definition removal_error (c : ConsistentHash server) (n : option server)
    : option (option error) :=
  match Remove c n with
  | Returned (_, e) => Some e
  | Panicked => None
  end.

End Sample.

(** * Properties *)

(** ** The default hash *)

Lemma lxor_uint32 a b : is_uint32 a → is_uint32 b → is_uint32 (Z.lxor a b).
Proof.
  unfold is_uint32. intros Ha Hb. split; [apply Z.lxor_nonneg; lia|].
  destruct (decide (Z.lxor a b = 0)) as [->|Hne]; [done|].
  apply Z.log2_lt_pow2; [pose proof (Z.lxor_nonneg a b); lia|].
  pose proof (Z.log2_lxor a b ltac:(lia) ltac:(lia)) as Hlog.
  assert (∀ x, 0 ≤ x < 2 ^ 32 → Z.log2 x < 32) as Hx.
  { intros x Hx. destruct (decide (x = 0)) as [->|]; [done|].
    apply Z.log2_lt_pow2; lia. }
  pose proof (Hx a Ha). pose proof (Hx b Hb). lia.
Qed.

Lemma shift1_uint32 crc : is_uint32 crc → is_uint32 (crc32.shift1 crc).
Proof.
  intros Hc. unfold crc32.shift1.
  assert (is_uint32 (Z.shiftr crc 1)) as Hs.
  { unfold is_uint32 in *. rewrite Z.shiftr_div_pow2 by lia. change (2 ^ 1) with 2.
    split; [apply Z.div_pos; lia | apply Z.div_lt_upper_bound; lia]. }
  destruct (Z.testbit crc 0); [|done].
  apply lxor_uint32; [done|]. unfold is_uint32, crc32.IEEE. lia.
Qed.

Lemma update_byte_uint32 crc b : is_uint32 crc → is_uint32 (crc32.update_byte crc b).
Proof.
  intros Hc. unfold crc32.update_byte.
  assert (is_uint32 (Z.lxor crc (Z.of_N (N_of_ascii b)))) as Hx.
  { apply lxor_uint32; [done|]. pose proof (N_ascii_bounded b). unfold is_uint32. lia. }
  generalize dependent (Z.lxor crc (Z.of_N (N_of_ascii b))). intros x Hx.
  do 8 (rewrite Nat.iter_succ; apply shift1_uint32). done.
Qed.

(** The default hash yields a 32-bit value. *)
Lemma ChecksumIEEE_uint32 s : is_uint32 (crc32.ChecksumIEEE s).
Proof.
  unfold crc32.ChecksumIEEE. apply lxor_uint32; [|unfold is_uint32; lia].
  assert (is_uint32 0xFFFFFFFF) as H0 by (unfold is_uint32; lia).
  revert H0. generalize 0xFFFFFFFF. induction s as [|b s IH]; intros crc Hc; simpl; [done|].
  apply IH. by apply update_byte_uint32.
Qed.

(** ** The binary search *)

Lemma search_loop_range steps f i j :
  i ≤ j → i ≤ search_loop steps f i j ≤ j.
Proof.
  revert i j. induction steps as [|steps IH]; intros i j Hij; simpl; [lia|].
  case_bool_decide; [|lia].
  assert (i ≤ Z.shiftr (i + j) 1 < j) as Hh.
  { rewrite Z.shiftr_div_pow2 by lia. change (2 ^ 1) with 2.
    split; [apply Z.div_le_lower_bound | apply Z.div_lt_upper_bound]; lia. }
  destruct (f _); simpl.
  - specialize (IH i (Z.shiftr (i + j) 1)). lia.
  - specialize (IH (Z.shiftr (i + j) 1 + 1) j). lia.
Qed.

(** On a predicate that is false and then true, the loop stops at the first
    index where it is true, within the given number of steps. *)
Lemma search_loop_first steps f i j :
  i ≤ j → j - i ≤ Z.of_nat steps →
  (∀ a b, i ≤ a → a ≤ b → b < j → f a = true → f b = true) →
  let r := search_loop steps f i j in
  (∀ k, i ≤ k < r → f k = false) ∧ (r < j → f r = true).
Proof.
  revert i j. induction steps as [|steps IH]; intros i j Hij Hsteps Hmono; simpl.
  { split; intros; lia. }
  case_bool_decide; [|split; intros; lia].
  assert (i ≤ Z.shiftr (i + j) 1 < j) as Hh.
  { rewrite Z.shiftr_div_pow2 by lia. change (2 ^ 1) with 2.
    split; [apply Z.div_le_lower_bound | apply Z.div_lt_upper_bound]; lia. }
  set (h := Z.shiftr (i + j) 1) in *.
  destruct (f h) eqn:Hfh; simpl.
  - destruct (IH i h) as [Hlow Hhigh]; [lia | lia | |].
    { intros a b ? ? ? ?. apply (Hmono a b); lia || done. }
    split; [done|]. intros Hr.
    pose proof (search_loop_range steps f i h ltac:(lia)) as Hrange.
    destruct (decide (search_loop steps f i h = h)) as [->|]; [done|].
    apply Hhigh. lia.
  - destruct (IH (h + 1) j) as [Hlow Hhigh]; [lia | lia | |].
    { intros a b ? ? ? ?. apply (Hmono a b); lia || done. }
    split; [|done]. intros k Hk.
    destruct (decide (h + 1 ≤ k)); [apply Hlow; lia|].
    destruct (f k) eqn:Hfk; [|done].
    rewrite <- Hfh. symmetry. apply (Hmono k h); lia || done.
Qed.

Lemma index_nonneg (s : list Z) i : 0 ≤ i → index s i = s !! Z.to_nat i.
Proof.
  intros Hi. unfold index. case_bool_decide as Hr; [done|].
  symmetry. apply lookup_ge_None. lia.
Qed.

Lemma index_of_nat (s : list Z) (k : nat) : index s (Z.of_nat k) = s !! k.
Proof. rewrite index_nonneg by lia. by rewrite Nat2Z.id. Qed.

Lemma at_least_of_nat (s : list Z) v (k : nat) x :
  s !! k = Some x → at_least s v (Z.of_nat k) = bool_decide (v ≤ x).
Proof. intros Hk. unfold at_least. by rewrite index_of_nat, Hk. Qed.

(** ** Strictly ascending slices *)

Lemma ascending_lookup_lt (s : list Z) a b x y :
  StronglySorted Z.lt s → s !! a = Some x → s !! b = Some y →
  (a < b)%nat → x < y.
Proof.
  intros Hs. revert a b. induction Hs as [|z s Hs IH Hall]; intros a b Ha Hb Hab.
  { by rewrite lookup_nil in Ha. }
  destruct b as [|b]; [lia|]. destruct a as [|a]; simpl in *.
  - simplify_eq. rewrite Forall_forall in Hall. apply Hall.
    by eapply list_elem_of_lookup_2.
  - apply (IH a b); [done | done | lia].
Qed.

Lemma ascending_lookup_le (s : list Z) a b x y :
  StronglySorted Z.lt s → s !! a = Some x → s !! b = Some y →
  (a ≤ b)%nat → x ≤ y.
Proof.
  intros Hs Ha Hb Hab. destruct (decide (a = b)) as [->|].
  - simplify_eq. lia.
  - pose proof (ascending_lookup_lt s a b x y Hs Ha Hb). lia.
Qed.

Lemma ascending_NoDup (s : list Z) : StronglySorted Z.lt s → NoDup s.
Proof.
  induction 1 as [|z s Hs IH Hall]; constructor; [|done].
  intros Hin. rewrite Forall_forall in Hall. specialize (Hall z Hin). lia.
Qed.

Lemma ascending_sublist (s1 s2 : list Z) :
  s1 `sublist_of` s2 → StronglySorted Z.lt s2 → StronglySorted Z.lt s1.
Proof.
  induction 1 as [|x s1 s2 Hsub IH|x s1 s2 Hsub IH]; intros Hs.
  - constructor.
  - apply StronglySorted_inv in Hs as [Hs Hall]. constructor; [by apply IH|].
    rewrite Forall_forall in *. intros y Hy. apply Hall.
    by eapply elem_of_sublist.
  - apply StronglySorted_inv in Hs as [Hs _]. by apply IH.
Qed.

Lemma ascending_of_sorted_NoDup (s : list Z) :
  StronglySorted Z.le s → NoDup s → StronglySorted Z.lt s.
Proof.
  induction 1 as [|z s Hs IH Hall]; intros Hnd; [constructor|].
  apply NoDup_cons in Hnd as [Hz Hnd]. constructor; [by apply IH|].
  rewrite Forall_forall in *. intros y Hy. specialize (Hall y Hy).
  assert (y ≠ z) by (intros ->; done). lia.
Qed.

(** Two strictly ascending slices with the same elements are equal. *)
Lemma ascending_unique (s1 s2 : list Z) :
  StronglySorted Z.lt s1 → StronglySorted Z.lt s2 → s1 ≡ₚ s2 → s1 = s2.
Proof.
  intros H1 H2 Hp.
  assert (∀ s, StronglySorted Z.lt s → StronglySorted Z.le s) as Hle.
  { induction 1 as [|z s Hs IH Hall]; constructor; [done|].
    eapply Forall_impl; [done|]. simpl. lia. }
  eapply (StronglySorted_unique Z.le); eauto.
Qed.

Lemma sort_Slice_ascending (s : list Z) :
  NoDup s → StronglySorted Z.lt (sort_Slice s).
Proof.
  intros Hnd. apply ascending_of_sorted_NoDup.
  - apply (StronglySorted_merge_sort Z.le).
  - unfold sort_Slice. by rewrite merge_sort_Permutation.
Qed.

Lemma sort_Slice_Permutation (s : list Z) : sort_Slice s ≡ₚ s.
Proof. apply merge_sort_Permutation. Qed.

(** ** The binary search on an ascending slice *)

(** [sort.Search] with the closure [s[i] >= v] returns the number of entries
    below [v]. *)
Lemma Search_at_least (s : list Z) v :
  StronglySorted Z.lt s →
  ∃ r : nat, Search (Z.of_nat (length s)) (at_least s v) = Z.of_nat r ∧
    (r ≤ length s)%nat ∧
    (∀ k x, (k < r)%nat → s !! k = Some x → x < v) ∧
    (∀ x, s !! r = Some x → v ≤ x).
Proof.
  intros Hs. unfold Search.
  set (n := Z.of_nat (length s)). set (f := at_least s v).
  pose proof (search_loop_range (Z.to_nat n) f 0 n ltac:(lia)) as Hrange.
  destruct (search_loop_first (Z.to_nat n) f 0 n) as [Hlow Hhigh]; [lia | lia | |].
  { intros a b Ha Hab Hb. unfold f, at_least.
    rewrite !index_nonneg by lia.
    destruct (lookup_lt_is_Some_2 s (Z.to_nat b)) as [y Hy]; [lia|].
    destruct (s !! Z.to_nat a) as [x|] eqn:Hx; [|done]. rewrite Hy.
    intros Hvx%bool_decide_eq_true. apply bool_decide_eq_true.
    pose proof (ascending_lookup_le s _ _ x y Hs Hx Hy). lia. }
  set (r := search_loop (Z.to_nat n) f 0 n) in *.
  exists (Z.to_nat r). split; [lia|]. split; [lia|]. split.
  - intros k x Hk Hx. specialize (Hlow (Z.of_nat k) ltac:(lia)).
    unfold f in Hlow. rewrite (at_least_of_nat s v k x Hx) in Hlow.
    apply bool_decide_eq_false in Hlow. lia.
  - intros x Hx. apply lookup_lt_Some in Hx as Hlt.
    specialize (Hhigh ltac:(lia)). unfold f, at_least in Hhigh.
    rewrite index_nonneg, Hx in Hhigh by lia.
    by apply bool_decide_eq_true in Hhigh.
Qed.

(** Searching for a value the slice holds finds its index. *)
Lemma Search_at_least_elem (s : list Z) v :
  StronglySorted Z.lt s → v ∈ s →
  ∃ r : nat, Search (Z.of_nat (length s)) (at_least s v) = Z.of_nat r ∧
    s !! r = Some v.
Proof.
  intros Hs [m Hm]%list_elem_of_lookup_1.
  destruct (Search_at_least s v Hs) as (r & Hr & Hlen & Hlow & Hhigh).
  exists r. split; [done|].
  assert (r ≤ m)%nat as Hrm.
  { destruct (decide (r ≤ m)%nat); [done|].
    specialize (Hlow m v ltac:(lia) Hm). lia. }
  destruct (lookup_lt_is_Some_2 s r) as [x Hx].
  { apply lookup_lt_Some in Hm. lia. }
  specialize (Hhigh x Hx).
  pose proof (ascending_lookup_le s r m x v Hs Hx Hm Hrm).
  rewrite Hx. f_equal. lia.
Qed.

(** ** Cutting positions out of the index *)

Lemma cut_positions_ascending (vns s : list Z) :
  StronglySorted Z.lt s → NoDup vns → (∀ v, v ∈ vns → v ∈ s) →
  ∃ s', cut_positions vns s = Some s' ∧ StronglySorted Z.lt s' ∧ s ≡ₚ vns ++ s'.
Proof.
  revert s. induction vns as [|v vns IH]; intros s Hs Hnd Hin; cbn [cut_positions].
  { by exists s. }
  apply NoDup_cons in Hnd as [Hv Hnd].
  destruct (Search_at_least_elem s v Hs) as (r & -> & Hr); [apply Hin; left|].
  apply lookup_lt_Some in Hr as Hlt.
  rewrite bool_decide_eq_true_2 by lia.
  replace (Z.to_nat (Z.of_nat r + 1)) with (S r) by lia.
  rewrite Nat2Z.id, <- delete_take_drop.
  pose proof (delete_Permutation s r v Hr) as Hperm.
  destruct (IH (delete r s)) as (s' & Hcut & Hs' & Hp'); [| done | |].
  - eapply ascending_sublist; [apply sublist_delete | done].
  - intros v' Hv'. specialize (Hin v' ltac:(by right)).
    rewrite Hperm in Hin. apply elem_of_cons in Hin as [->|]; done.
  - exists s'. split; [done|]. split; [done|].
    by rewrite Hperm, Hp'.
Qed.

(** ** Folding insertions and deletions over the Position Map *)

Lemma lookup_foldl_insert (key : string) (ps : list Z) (m : gmap Z string) p :
  foldl (λ m p, <[p := key]> m) m ps !! p =
    if decide (p ∈ ps) then Some key else m !! p.
Proof.
  revert m. induction ps as [|q ps IH]; intros m; cbn [foldl].
  { destruct (decide (p ∈ [])) as [Hin|]; [|done]. by apply not_elem_of_nil in Hin. }
  rewrite IH. destruct (decide (p ∈ ps)) as [Hin|Hin].
  - rewrite decide_True; [done | by right].
  - destruct (decide (p = q)) as [->|Hne].
    + rewrite lookup_insert_eq, decide_True; [done | by left].
    + rewrite lookup_insert_ne by done. rewrite decide_False; [done|].
      by intros [?|?]%elem_of_cons.
Qed.

Lemma lookup_foldl_delete (ps : list Z) (m : gmap Z string) p :
  foldl (λ m v, delete v m) m ps !! p =
    if decide (p ∈ ps) then None else m !! p.
Proof.
  revert m. induction ps as [|q ps IH]; intros m; cbn [foldl].
  { destruct (decide (p ∈ [])) as [Hin|]; [|done]. by apply not_elem_of_nil in Hin. }
  rewrite IH. destruct (decide (p ∈ ps)) as [Hin|Hin].
  - rewrite decide_True; [done | by right].
  - destruct (decide (p = q)) as [->|Hne].
    + rewrite lookup_delete_eq, decide_True; [done | by left].
    + rewrite lookup_delete_ne by done. rewrite decide_False; [done|].
      by intros [?|?]%elem_of_cons.
Qed.

(** Deleting fresh positions after inserting them gives the map back. *)
Lemma foldl_delete_insert (key : string) (ps : list Z) (m : gmap Z string) :
  (∀ p, p ∈ ps → m !! p = None) →
  foldl (λ m v, delete v m) (foldl (λ m p, <[p := key]> m) m ps) ps = m.
Proof.
  intros Hfresh. apply map_eq. intros p.
  rewrite lookup_foldl_delete, lookup_foldl_insert.
  destruct (decide (p ∈ ps)); [|done]. symmetry. by apply Hfresh.
Qed.

Section RingFacts.

Context {T : Type} `{Node T}.

Implicit Types (c : ConsistentHash T) (reg : gmap string (consistentNode T)).

(** ** The registry's positions *)

Lemma positions_of_insert reg key cn :
  reg !! key = None →
  positions_of (<[key := cn]> reg) ≡ₚ virtualNodes cn ++ positions_of reg.
Proof.
  intros Hnone. unfold positions_of.
  by rewrite (map_to_list_insert reg key cn Hnone).
Qed.

Lemma positions_of_delete reg key cn :
  reg !! key = Some cn →
  positions_of reg ≡ₚ virtualNodes cn ++ positions_of (delete key reg).
Proof.
  intros Hsome. unfold positions_of.
  by rewrite <- (map_to_list_delete reg key cn Hsome).
Qed.

Lemma elem_of_positions_of reg p :
  p ∈ positions_of reg ↔ ∃ key cn, reg !! key = Some cn ∧ p ∈ virtualNodes cn.
Proof.
  unfold positions_of. rewrite list_elem_of_join. split.
  - intros (l & Hp & Hl). apply list_elem_of_fmap in Hl as (cn & -> & Hcn).
    apply list_elem_of_fmap in Hcn as ([key cn'] & -> & Hin).
    apply elem_of_map_to_list in Hin. by exists key, cn'.
  - intros (key & cn & Hm & Hp). exists (virtualNodes cn). split; [done|].
    apply list_elem_of_fmap. exists cn. split; [done|].
    apply list_elem_of_fmap. exists (key, cn). split; [done|].
    by apply elem_of_map_to_list.
Qed.

Lemma length_positions_of reg : length (positions_of reg) = replica_total reg.
Proof.
  unfold positions_of, replica_total.
  by rewrite length_join, <- list_fmap_compose.
Qed.

(** Every position of the index is mapped to the registered node that
    lists it. *)
Lemma ring_inv_owner c p :
  ring_inv c → p ∈ hashSortedNodes c →
  ∃ key cn nd, circle c !! p = Some key ∧ nodes c !! key = Some cn ∧
    p ∈ virtualNodes cn ∧ node cn = Some nd ∧ Key nd = key.
Proof.
  intros Hinv Hp. rewrite (inv_index c Hinv) in Hp.
  apply elem_of_positions_of in Hp as (key & cn & Hcn & Hp).
  destruct (inv_entry c Hinv key cn Hcn) as ((nd & Hnd & Hkey) & _ & Hcirc).
  exists key, cn, nd. split_and!; auto.
Qed.

Lemma ring_inv_nonempty c :
  ring_inv c → nodes c ≠ ∅ → hashSortedNodes c ≠ [].
Proof.
  intros Hinv (key & cn & Hcn)%map_choose Hnil.
  destruct (inv_entry c Hinv key cn Hcn) as (_ & Hne & _).
  destruct (virtualNodes cn) as [|p ps] eqn:Hvns; [done|].
  assert (p ∈ hashSortedNodes c) as Hp.
  { rewrite (inv_index c Hinv). apply elem_of_positions_of.
    exists key, cn. rewrite Hvns. split; [done | by left]. }
  rewrite Hnil in Hp. by apply not_elem_of_nil in Hp.
Qed.

(** ** The placement loops *)

Lemma try_replica_Some h key i (circ : gmap Z string) js k :
  try_replica h key i circ js = Some k →
  ∃ (n : nat) j, js !! n = Some j ∧ k = h (key +:+ Itoa i +:+ Itoa j) ∧
    circ !! k = None ∧
    ∀ (n' : nat) j', (n' < n)%nat → js !! n' = Some j' →
      is_Some (circ !! h (key +:+ Itoa i +:+ Itoa j')).
Proof.
  induction js as [|j js IH]; simpl; [done|].
  destruct (circ !! h (key +:+ Itoa i +:+ Itoa j)) as [owner|] eqn:Hocc.
  - intros (n & j0 & Hn & Hk & Hfree & Hbusy)%IH.
    exists (S n), j0. split_and!; [done..|].
    intros [|n'] j' Hlt Hj'; simpl in Hj'.
    + simplify_eq. by rewrite Hocc.
    + apply (Hbusy n'); [lia | done].
  - intros [= <-]. exists 0%nat, j. split_and!; [done..|]. intros; lia.
Qed.

Lemma place_replicas_spec h key ixs (circ : gmap Z string) vns circ' r :
  place_replicas h key ixs circ vns = (circ', r) →
  ∃ new, circ' = foldl (λ m p, <[p := key]> m) circ new ∧
    NoDup new ∧ (∀ p, p ∈ new → circ !! p = None) ∧
    match r with
    | Some out =>
        out = vns ++ new ∧ length new = length ixs ∧
        ∀ (n : nat) i, ixs !! n = Some i →
          try_replica h key i
            (foldl (λ m p, <[p := key]> m) circ (take n new)) (seqZ 0 3)
          = new !! n
    | None => True
    end.
Proof.
  revert circ vns. induction ixs as [|i ixs IH]; intros circ vns; cbn [place_replicas].
  { intros [= <- <-]. exists [].
    split; [done|]. split; [constructor|].
    split; [by intros p ?%not_elem_of_nil|].
    split_and!; [by rewrite app_nil_r | done | by intros n i ?]. }
  destruct (try_replica h key i circ (seqZ 0 3)) as [k|] eqn:Htry.
  - intros (new & -> & Hnd & Hfresh & Hr)%IH.
    apply try_replica_Some in Htry as Hk. destruct Hk as (_ & _ & _ & _ & Hfree & _).
    assert (k ∉ new) as Hk.
    { intros Hin. specialize (Hfresh k Hin). by rewrite lookup_insert_eq in Hfresh. }
    exists (k :: new). split; [done|]. split; [by constructor|]. split.
    + intros p [->|Hp]%elem_of_cons; [done|].
      specialize (Hfresh p Hp). rewrite lookup_insert_ne in Hfresh; [done|].
      by intros ->.
    + destruct r as [out|]; [|done]. destruct Hr as (-> & Hlen & Hat).
      split_and!; [by rewrite <- app_assoc | by simpl; f_equal |].
      intros [|n] i' Hi'; simpl in *; [by simplify_eq|]. by apply Hat.
  - intros [= <- <-]. exists [].
    split; [done|]. split; [constructor|].
    split; [by intros p ?%not_elem_of_nil | done].
Qed.

(** ** The invariant is kept *)

Lemma ring_inv_new h : ring_inv (NewConsistentWithCustomHash (T:=T) h).
Proof.
  split; simpl.
  - constructor.
  - unfold positions_of. by rewrite map_to_list_empty.
  - intros key cn. by rewrite lookup_empty.
  - by left.
Qed.

(** Fresh positions written to the Position Map alone, as a failing call
    leaves them, do not disturb the invariant. *)
Lemma ring_inv_extend c key new h :
  ring_inv c → (∀ p, p ∈ new → circle c !! p = None) →
  ring_inv {| hashSortedNodes := hashSortedNodes c;
              circle := foldl (λ m p, <[p := key]> m) (circle c) new;
              nodes := nodes c; hash := Some h |}.
Proof.
  intros [Hs Hi He Hh] Hfresh. split; simpl; [done | done | | by right].
  intros key' cn Hcn. destruct (He key' cn Hcn) as (Hnd & Hne & Hcirc).
  split_and!; [done..|]. intros p Hp. rewrite lookup_foldl_insert.
  destruct (decide (p ∈ new)) as [Hin|]; [|by apply Hcirc].
  specialize (Hfresh p Hin). rewrite (Hcirc p Hp) in Hfresh. done.
Qed.

Lemma ring_inv_register c (nd : T) new h :
  ring_inv c → nodes c !! Key nd = None → new ≠ [] → NoDup new →
  (∀ p, p ∈ new → circle c !! p = None) →
  ring_inv {| hashSortedNodes := sort_Slice (hashSortedNodes c ++ new);
              circle := foldl (λ m p, <[p := Key nd]> m) (circle c) new;
              nodes := <[Key nd := {| node := Some nd; virtualNodes := new |}]> (nodes c);
              hash := Some h |}.
Proof.
  intros Hinv Hnone Hne Hnd Hfresh. split; simpl; [| | | by right].
  - apply sort_Slice_ascending. apply NoDup_app. split_and!; [|  | done].
    + apply ascending_NoDup, Hinv.
    + intros p Hp Hin. destruct (ring_inv_owner c p Hinv Hp) as (key & _ & _ & Hcirc & _).
      specialize (Hfresh p Hin). by rewrite Hcirc in Hfresh.
  - rewrite sort_Slice_Permutation, positions_of_insert by done. simpl.
    rewrite (inv_index c Hinv). apply Permutation_app_comm.
  - intros key cn. destruct (decide (key = Key nd)) as [->|Hkey].
    + rewrite lookup_insert_eq. intros [= <-]. simpl. split_and!; [by exists nd | done |].
      intros p Hp. rewrite lookup_foldl_insert. by rewrite decide_True.
    + rewrite lookup_insert_ne by done. intros Hcn.
      destruct (inv_entry c Hinv key cn Hcn) as (Hn & Hv & Hcirc).
      split_and!; [done..|]. intros p Hp. rewrite lookup_foldl_insert.
      destruct (decide (p ∈ new)) as [Hin|]; [|by apply Hcirc].
      specialize (Hfresh p Hin). rewrite (Hcirc p Hp) in Hfresh. done.
Qed.

Lemma AddWithVirtualNode_inv c n v :
  ring_inv c → ring_inv (AddWithVirtualNode c n v).1.
Proof.
  intros Hinv. unfold AddWithVirtualNode.
  destruct n as [nd|]; [|done].
  case_bool_decide as Hv; [done|].
  destruct (nodes c !! Key nd) as [cn|] eqn:Hreg; simpl.
  { apply (ring_inv_extend c (Key nd) [] _ Hinv). by intros p ?%not_elem_of_nil. }
  destruct (place_replicas _ _ _ _ _) as [circ r] eqn:Hplace.
  apply place_replicas_spec in Hplace as (new & -> & Hnd & Hfresh & Hr).
  destruct r as [out|]; simpl.
  - destruct Hr as (-> & Hlen & _). simpl.
    apply ring_inv_register; try done.
    intros ->. rewrite length_seqZ in Hlen. simpl in Hlen. lia.
  - by apply ring_inv_extend.
Qed.

Lemma Remove_inv c n c' e :
  ring_inv c → Remove c n = Returned (c', e) → ring_inv c'.
Proof.
  intros Hinv. unfold Remove. destruct n as [nd|]; [|done].
  destruct (nodes c !! Key nd) as [cn|] eqn:Hreg; [|by intros [= <- <-]].
  pose proof (positions_of_delete _ _ _ Hreg) as Hsplit.
  pose proof (ascending_NoDup _ (inv_sorted c Hinv)) as Hnd.
  rewrite (inv_index c Hinv), Hsplit in Hnd.
  apply NoDup_app in Hnd as (Hnd & Hdisj & _).
  destruct (cut_positions_ascending (virtualNodes cn) (hashSortedNodes c))
    as (s & -> & Hs & Hperm); [apply Hinv | done | |].
  { intros p Hp. rewrite (inv_index c Hinv), Hsplit. apply elem_of_app. by left. }
  intros [= <- <-]. split; simpl.
  - done.
  - rewrite (inv_index c Hinv), Hsplit in Hperm.
    by apply Permutation_app_inv_l in Hperm.
  - intros key cn' Hcn'. apply lookup_delete_Some in Hcn' as [Hkey Hcn'].
    destruct (inv_entry c Hinv key cn' Hcn') as (Hn & Hv & Hcirc).
    split_and!; [done..|]. intros p Hp. rewrite lookup_foldl_delete.
    destruct (decide (p ∈ virtualNodes cn)) as [Hin|]; [|by apply Hcirc].
    destruct (Hdisj p Hin). apply elem_of_positions_of. exists key, cn'.
    split; [|done]. by rewrite lookup_delete_ne.
  - destruct (inv_hash c Hinv) as [Hempty|Hh]; [|by right].
    rewrite Hempty in Hreg. by rewrite lookup_empty in Hreg.
Qed.

Lemma reachable_inv c : reachable c → ring_inv c.
Proof.
  induction 1 as [|h|c n v _ IH|c n c' e _ IH Hrem].
  - apply (ring_inv_new None).
  - apply ring_inv_new.
  - by apply AddWithVirtualNode_inv.
  - by eapply Remove_inv.
Qed.

(** ** The lookup *)

Lemma getPosition_selects c hv :
  StronglySorted Z.lt (hashSortedNodes c) → hashSortedNodes c ≠ [] →
  ∃ p, index (hashSortedNodes c) (getPosition c hv) = Some p ∧
    selects (hashSortedNodes c) hv p.
Proof.
  intros Hs Hne. unfold getPosition.
  destruct (Search_at_least (hashSortedNodes c) hv Hs) as (r & -> & Hlen & Hlow & Hhigh).
  set (s := hashSortedNodes c) in *.
  assert (0 < length s)%nat as Hpos by (destruct s; [done | simpl; lia]).
  assert (∀ p, s !! r = Some p → least_at_least s hv p) as Hleast.
  { intros p Hp. split_and!; [by eapply list_elem_of_lookup_2 | by apply Hhigh |].
    intros q [m Hm]%list_elem_of_lookup_1 Hq.
    destruct (decide (m < r)%nat) as [Hmr|Hmr].
    - specialize (Hlow m q Hmr Hm). lia.
    - apply (ascending_lookup_le s r m p q Hs Hp Hm). lia. }
  cbn zeta. case_bool_decide as Hfound.
  - destruct (lookup_lt_is_Some_2 s r) as [p Hp]; [lia|].
    case_bool_decide as Hlast.
    + destruct (lookup_lt_is_Some_2 s 0) as [q Hq]; [lia|].
      exists q. split; [by rewrite <- Hq; apply (index_of_nat s 0)|].
      apply (select_found_last s hv p q); [by apply Hleast | | by rewrite head_lookup].
      rewrite last_lookup, <- Hp. f_equal. lia.
    + exists p. split; [by rewrite index_of_nat|].
      apply select_found; [by apply Hleast|].
      rewrite last_lookup. intros Hx.
      pose proof (ascending_lookup_lt s r (pred (length s)) p p Hs Hp Hx). lia.
  - assert (r = length s) as -> by lia.
    destruct (lookup_lt_is_Some_2 s (pred (length s))) as [q Hq]; [lia|].
    exists q. split.
    + replace (Z.of_nat (length s) - 1) with (Z.of_nat (pred (length s))) by lia.
      by rewrite index_of_nat.
    + apply select_none; [|by rewrite last_lookup].
      intros p [m Hm]%list_elem_of_lookup_1. apply (Hlow m p); [|done].
      by apply lookup_lt_Some in Hm.
Qed.

(** On a ring with a registered node, [GetNode] returns the node the
    Position Map and the registry hold for the selected position. *)
Lemma GetNode_registered c key :
  ring_inv c → nodes c ≠ ∅ →
  ∃ h p owner cn nd,
    hash c = Some h ∧ selects (hashSortedNodes c) (h key) p ∧
    circle c !! p = Some owner ∧ nodes c !! owner = Some cn ∧
    node cn = Some nd ∧ Key nd = owner ∧
    GetNode c key = Returned (Some nd, None).
Proof.
  intros Hinv Hne.
  destruct (inv_hash c Hinv) as [?|[h Hh]]; [done|].
  destruct (getPosition_selects c (h key)) as (p & Hidx & Hsel);
    [apply Hinv | by apply ring_inv_nonempty |].
  assert (p ∈ hashSortedNodes c) as Hp.
  { unfold index in Hidx. case_bool_decide; [|done].
    by eapply list_elem_of_lookup_2. }
  destruct (ring_inv_owner c p Hinv Hp) as (owner & cn & nd & Hcirc & Hreg & _ & Hnd & Hkey).
  exists h, p, owner, cn, nd. split_and!; try done.
  unfold GetNode, hashKey.
  rewrite bool_decide_eq_false_2 by (by apply map_size_non_empty_iff).
  rewrite Hh, Hidx, Hcirc. simpl. rewrite Hreg. simpl. by rewrite Hnd.
Qed.

Lemma unpopulated_nodes c : unpopulated c → nodes c = ∅.
Proof.
  induction 1 as [|c n v c' e _ IH Hadd|c n c' e _ IH Hrem]; [done| |].
  - unfold AddWithVirtualNode in Hadd. destruct n as [nd|]; [|by simplify_eq].
    case_bool_decide; [by simplify_eq|].
    destruct (nodes c !! Key nd); [by simplify_eq|].
    destruct (place_replicas _ _ _ _ _) as [circ [out|]]; by simplify_eq.
  - unfold Remove in Hrem. destruct n as [nd|]; [|done].
    rewrite IH, lookup_empty in Hrem. by simplify_eq.
Qed.

(** ** What a successful registration writes *)

Lemma AddWithVirtualNode_success c nd v c' :
  AddWithVirtualNode c (Some nd) v = (c', None) →
  ∃ new,
    1 ≤ v ∧ nodes c !! Key nd = None ∧
    c' = {| hashSortedNodes := sort_Slice (hashSortedNodes c ++ new);
            circle := foldl (λ m p, <[p := Key nd]> m) (circle c) new;
            nodes := <[Key nd := {| node := Some nd; virtualNodes := new |}]> (nodes c);
            hash := Some (default crc32.ChecksumIEEE (hash c)) |} ∧
    NoDup new ∧ (∀ p, p ∈ new → circle c !! p = None) ∧
    length new = Z.to_nat v ∧
    ∀ (n : nat) i, seqZ 0 v !! n = Some i →
      try_replica (default crc32.ChecksumIEEE (hash c)) (Key nd) i
        (foldl (λ m p, <[p := Key nd]> m) (circle c) (take n new)) (seqZ 0 3)
      = new !! n.
Proof.
  unfold AddWithVirtualNode. case_bool_decide as Hv; [done|].
  destruct (nodes c !! Key nd) as [cn|] eqn:Hreg; [done|].
  destruct (place_replicas _ _ _ _ _) as [circ r] eqn:Hplace.
  apply place_replicas_spec in Hplace as (new & -> & Hnd & Hfresh & Hr).
  destruct r as [out|]; [|done]. destruct Hr as (-> & Hlen & Hat).
  intros [= <-]. exists new. rewrite length_seqZ in Hlen.
  split_and!; try done. lia.
Qed.

(** A registration that fails on a collision leaves the Position Index and
    the Node Registry as they were; the Position Map keeps what it had and
    may have gained the positions placed before the collision. *)
Lemma AddWithVirtualNode_collision c n v c' key :
  AddWithVirtualNode c n v = (c', Some (HashCollision key)) →
  hashSortedNodes c' = hashSortedNodes c ∧ nodes c' = nodes c ∧
  circle c ⊆ circle c'.
Proof.
  unfold AddWithVirtualNode. destruct n as [nd|]; [|done].
  case_bool_decide; [done|].
  destruct (nodes c !! Key nd); [done|].
  destruct (place_replicas _ _ _ _ _) as [circ r] eqn:Hplace.
  apply place_replicas_spec in Hplace as (new & -> & Hnd & Hfresh & Hr).
  destruct r as [out|]; [done|]. intros [= <- _]. simpl.
  split_and!; [done..|]. apply map_subseteq_spec. intros p owner Hp.
  rewrite lookup_foldl_insert. destruct (decide (p ∈ new)) as [Hin|]; [|done].
  specialize (Hfresh p Hin). by rewrite Hp in Hfresh.
Qed.

(** ** The claims *)

(** C2.  On a ring with a registered node, [GetNode] works on the position
    the specification's rule selects for the hash of the key: the smallest
    entry of the Position Index at least the hash; the entry at index 0
    when that smallest entry is the last one; the last entry when no entry
    is at least the hash.  It returns the node that the Position Map and
    the Node Registry give for that position. *)
Theorem C2_resolve_selection c key :
  reachable c → nodes c ≠ ∅ →
  ∃ h p owner cn,
    hash c = Some h ∧ selects (hashSortedNodes c) (h key) p ∧
    circle c !! p = Some owner ∧ nodes c !! owner = Some cn ∧
    GetNode c key = Returned (node cn, None).
Proof.
  intros Hreach Hne.
  destruct (GetNode_registered c key (reachable_inv c Hreach) Hne)
    as (h & p & owner & cn & nd & Hh & Hsel & Hcirc & Hreg & Hnd & _ & Hget).
  exists h, p, owner, cn. by rewrite Hnd.
Qed.

(** C4.  On every reachable ring with at least one registered node,
    [GetNode] returns, for every key, without error and without panic, a
    node that is not nil and whose key is in the Node Registry (as the
    node of that very entry). *)
Theorem C4_coverage c key :
  reachable c → nodes c ≠ ∅ →
  ∃ nd cn, GetNode c key = Returned (Some nd, None) ∧
    nodes c !! Key nd = Some cn ∧ node cn = Some nd.
Proof.
  intros Hreach Hne.
  destruct (GetNode_registered c key (reachable_inv c Hreach) Hne)
    as (h & p & owner & cn & nd & _ & _ & _ & Hreg & Hnd & Hkey & Hget).
  exists nd, cn. by rewrite Hkey.
Qed.

(** C5.  On a reachable ring, when [AddWithVirtualNode] registers a node
    that was not registered, removing that node at once returns without
    error and restores the Position Index, the Position Map and the Node
    Registry. *)
Theorem C5_add_then_remove c nd v c' :
  reachable c → nodes c !! Key nd = None →
  AddWithVirtualNode c (Some nd) v = (c', None) →
  ∃ c'', Remove c' (Some nd) = Returned (c'', None) ∧ same_structures c'' c.
Proof.
  intros Hinv%reachable_inv Hnone Hadd.
  pose proof (AddWithVirtualNode_inv c (Some nd) v Hinv) as Hinv'.
  rewrite Hadd in Hinv'. simpl in Hinv'.
  apply AddWithVirtualNode_success in Hadd
    as (new & _ & _ & -> & Hnd & Hfresh & _ & _).
  pose proof (inv_sorted _ Hinv') as Hs'. simpl in Hs'.
  destruct (cut_positions_ascending new (sort_Slice (hashSortedNodes c ++ new)))
    as (s & Hcut & Hs & Hperm); [done | done | |].
  { intros p Hp. rewrite sort_Slice_Permutation. apply elem_of_app. by right. }
  unfold Remove. simpl. rewrite lookup_insert_eq. simpl. rewrite Hcut.
  eexists. split; [done|]. unfold same_structures. simpl. split_and!.
  - symmetry. apply ascending_unique; [apply Hinv | done |].
    rewrite sort_Slice_Permutation, (Permutation_app_comm _ new) in Hperm.
    by apply Permutation_app_inv_l in Hperm.
  - by apply foldl_delete_insert.
  - by apply delete_insert_id.
Qed.

(** C6.  After a successful [AddWithVirtualNode] of [v] replicas, the
    registry entry of the node lists exactly [v] positions.  The position
    of replica [i] is the hash of key, [i] and [j] in decimal, for the
    least retry counter [j] below 3 whose hash is free in the Position Map
    as replica [i] finds it; every smaller counter hashes to an occupied
    position.  The hash is the ring's own, or CRC-32 when none was set. *)
Theorem C6_replica_positions c nd v c' :
  AddWithVirtualNode c (Some nd) v = (c', None) →
  ∃ h ps,
    h = default crc32.ChecksumIEEE (hash c) ∧ hash c' = Some h ∧
    nodes c' !! Key nd = Some {| node := Some nd; virtualNodes := ps |} ∧
    Z.of_nat (length ps) = v ∧
    ∀ i, 0 ≤ i < v →
      ∃ j, 0 ≤ j < 3 ∧
        ps !! Z.to_nat i = Some (h (Key nd +:+ Itoa i +:+ Itoa j)) ∧
        circle_before c (Key nd) ps i !! h (Key nd +:+ Itoa i +:+ Itoa j) = None ∧
        ∀ j', 0 ≤ j' < j →
          is_Some (circle_before c (Key nd) ps i !! h (Key nd +:+ Itoa i +:+ Itoa j')).
Proof.
  intros (new & Hv & _ & -> & _ & _ & Hlen & Hat)%AddWithVirtualNode_success.
  exists (default crc32.ChecksumIEEE (hash c)), new. simpl.
  split_and!; [done | done | by rewrite lookup_insert_eq | lia |].
  intros i Hi. specialize (Hat (Z.to_nat i) i).
  rewrite lookup_seqZ_lt in Hat by lia.
  specialize (Hat ltac:(f_equal; lia)).
  destruct (lookup_lt_is_Some_2 new (Z.to_nat i)) as [k Hk]; [lia|].
  rewrite Hk in Hat.
  apply try_replica_Some in Hat as (n & j & Hj & -> & Hfree & Hbusy).
  apply lookup_seqZ in Hj as [-> Hn].
  exists (0 + Z.of_nat n). split_and!; [lia | lia | done | done |].
  intros j' Hj'. apply (Hbusy (Z.to_nat j')); [lia|].
  rewrite lookup_seqZ. lia.
Qed.

(** C8.  On every reachable ring the Position Index is sorted ascending,
    holds no position twice, and is as long as the sum of the replica
    counts of the registered nodes. *)
Theorem C8_index_invariant c :
  reachable c →
  StronglySorted Z.le (hashSortedNodes c) ∧
  NoDup (hashSortedNodes c) ∧
  length (hashSortedNodes c) = replica_total (nodes c).
Proof.
  intros Hinv%reachable_inv. split_and!.
  - pose proof (inv_sorted c Hinv) as Hs.
    induction Hs as [|z s Hs IH Hall]; constructor; [done|].
    eapply Forall_impl; [done|]. simpl. lia.
  - apply ascending_NoDup, Hinv.
  - by rewrite (inv_index c Hinv), length_positions_of.
Qed.

(** C9.  [Remove] of a node whose key is not in the Node Registry returns
    the "not exist" error and the ring is the one it was given. *)
Theorem C9_remove_unregistered c nd :
  nodes c !! Key nd = None →
  Remove c (Some nd) = Returned (c, Some (NotExist (Key nd))).
Proof. intros Hnone. unfold Remove. by rewrite Hnone. Qed.

(** C10.  On a ring built by [NewConsistentHash] on which no registration
    has succeeded, [GetNode] returns the "node size is 0" error for every
    key, and it does so whatever the hash field holds, nil included: the
    hash function is not called. *)
Theorem C10_empty_ring_before_hash c key :
  unpopulated c →
  GetNode c key = Returned (None, Some NodeSizeIsZero) ∧
  ∀ h, GetNode (with_hash h c) key = Returned (None, Some NodeSizeIsZero).
Proof.
  intros Hempty%unpopulated_nodes.
  assert (∀ c0 : ConsistentHash T, nodes c0 = ∅ →
    GetNode c0 key = Returned (None, Some NodeSizeIsZero)) as Hget.
  { intros c0 H0. unfold GetNode. by rewrite H0, map_size_empty. }
  split; [by apply Hget|]. intros h. by apply Hget.
Qed.

End RingFacts.

(** ** The claims on sample rings *)

Import Sample.

Example ChecksumIEEE_check : crc32.ChecksumIEEE "123456789" = 0xCBF43926.
Proof. reflexivity. Qed.

Example abg_index : hashSortedNodes abg = [145836672; 2018627429; 4059785036].
Proof. reflexivity. Qed.

Lemma reachable_abg : reachable abg.
Proof. unfold abg, Add. repeat apply reach_add. apply reach_new. Defined.

Lemma nodes_abg : nodes abg ≠ ∅.
Proof. apply map_size_non_empty_iff. vm_compute. lia. Defined.

Lemma C2_witness :
  reachable abg ∧ nodes abg ≠ ∅ ∧
  ∃ h p owner cn,
    hash abg = Some h ∧ selects (hashSortedNodes abg) (h "hello") p ∧
    circle abg !! p = Some owner ∧ nodes abg !! owner = Some cn ∧
    GetNode abg "hello" = Returned (node cn, None).
Proof.
  split; [exact reachable_abg|]. split; [exact nodes_abg|].
  exact (C2_resolve_selection abg "hello" reachable_abg nodes_abg).
Defined.

Lemma C4_witness :
  reachable abg ∧ nodes abg ≠ ∅ ∧
  ∃ nd cn, GetNode abg "hello" = Returned (Some nd, None) ∧
    nodes abg !! Key nd = Some cn ∧ node cn = Some nd.
Proof.
  split; [exact reachable_abg|]. split; [exact nodes_abg|].
  exact (C4_coverage abg "hello" reachable_abg nodes_abg).
Defined.

Lemma returned_no_error {T : Type} (r : ConsistentHash T * option error) :
  r.2 = None → r = (r.1, None).
Proof. destruct r as [c e]. simpl. by intros ->. Defined.

Lemma C5_witness :
  let c := NewConsistentHash in
  let nd := {| addr := "alpha" |} in
  let c' := (AddWithVirtualNode c (Some nd) 3).1 in
  reachable c ∧ nodes c !! Key nd = None ∧
  AddWithVirtualNode c (Some nd) 3 = (c', None) ∧
  ∃ c'', Remove c' (Some nd) = Returned (c'', None) ∧ same_structures c'' c.
Proof.
  intros c nd c'.
  assert (AddWithVirtualNode c (Some nd) 3 = (c', None)) as Hadd
    by (apply returned_no_error; vm_compute; reflexivity).
  split; [apply reach_new|]. split; [reflexivity|]. split; [exact Hadd|].
  exact (C5_add_then_remove c nd 3 c' reach_new eq_refl Hadd).
Defined.

Lemma C6_witness :
  let c := NewConsistentHash in
  let nd := {| addr := "alpha" |} in
  let c' := (AddWithVirtualNode c (Some nd) 3).1 in
  AddWithVirtualNode c (Some nd) 3 = (c', None) ∧
  ∃ h ps,
    h = default crc32.ChecksumIEEE (hash c) ∧ hash c' = Some h ∧
    nodes c' !! Key nd = Some {| node := Some nd; virtualNodes := ps |} ∧
    Z.of_nat (length ps) = 3 ∧
    ∀ i, 0 ≤ i < 3 →
      ∃ j, 0 ≤ j < 3 ∧
        ps !! Z.to_nat i = Some (h (Key nd +:+ Itoa i +:+ Itoa j)) ∧
        circle_before c (Key nd) ps i !! h (Key nd +:+ Itoa i +:+ Itoa j) = None ∧
        ∀ j', 0 ≤ j' < j →
          is_Some (circle_before c (Key nd) ps i !! h (Key nd +:+ Itoa i +:+ Itoa j')).
Proof.
  intros c nd c'.
  assert (AddWithVirtualNode c (Some nd) 3 = (c', None)) as Hadd
    by (apply returned_no_error; vm_compute; reflexivity).
  split; [exact Hadd|].
  exact (C6_replica_positions c nd 3 c' Hadd).
Defined.

Lemma C8_witness :
  reachable abg ∧
  StronglySorted Z.le (hashSortedNodes abg) ∧
  NoDup (hashSortedNodes abg) ∧
  length (hashSortedNodes abg) = replica_total (nodes abg).
Proof.
  split; [exact reachable_abg|].
  exact (C8_index_invariant abg reachable_abg).
Defined.

Lemma C9_witness :
  nodes abg !! Key {| addr := "delta" |} = None ∧
  Remove abg (srv "delta") = Returned (abg, Some (NotExist "delta")).
Proof.
  assert (nodes abg !! Key {| addr := "delta" |} = None) as Hnone
    by (vm_compute; reflexivity).
  split; [exact Hnone|].
  exact (C9_remove_unregistered abg {| addr := "delta" |} Hnone).
Defined.

Lemma C10_witness :
  let c := (AddWithVirtualNode (NewConsistentHash (T:=server)) None 1).1 in
  unpopulated c ∧
  GetNode c "hello" = Returned (None, Some NodeSizeIsZero) ∧
  ∀ h, GetNode (with_hash h c) "hello" = Returned (None, Some NodeSizeIsZero).
Proof.
  intros c.
  assert (unpopulated c) as Hc.
  { apply (unpop_add NewConsistentHash None 1 c NodeIsNil); [apply unpop_new|].
    reflexivity. }
  split; [exact Hc|].
  exact (C10_empty_ring_before_hash c "hello" Hc).
Defined.

(** ** Where the code departs from the claims *)

(** C1.  A registration that fails on a collision does not leave the Position
    Map as it was.  On a ring whose hash sends every string to position 1,
    registering node "a" with two replicas places replica 0 at position 1,
    finds all three candidates of replica 1 occupied and fails; the Position
    Index and the Node Registry are untouched, the Position Map keeps the
    entry of replica 0. *)
Theorem C1_collision_keeps_placed_positions :
  let c := NewConsistentWithCustomHash (Some const_hash) in
  let r := AddWithVirtualNode c (srv "a") 2 in
  r.2 = Some (HashCollision "a") ∧
  hashSortedNodes r.1 = hashSortedNodes c ∧ nodes r.1 = nodes c ∧
  circle c = ∅ ∧ circle r.1 = {[ 1 := "a" ]} ∧
  ¬ same_structures r.1 c.
Proof.
  intros c r.
  assert (circle r.1 = {[ 1 := "a" ]}) as Hcirc by (vm_compute; reflexivity).
  split_and!; [reflexivity | reflexivity | reflexivity | reflexivity | exact Hcirc |].
  intros (_ & Hsame & _). rewrite Hcirc in Hsame.
  apply (f_equal (λ m : gmap Z string, m !! 1)) in Hsame.
  by rewrite lookup_singleton_eq in Hsame.
Qed.

(** C3.  Removing a node can move a key that another node owned.  With the
    default hash and the nodes "alpha", "beta" and "gamma" of one replica
    each, the key "hello" resolves to "alpha"; after [Remove] of "beta" it
    resolves to "gamma", although "alpha" was not touched. *)
Theorem C3_removal_moves_key_of_other_node :
  size (nodes abg) = 3%nat ∧
  GetNode abg "hello" = Returned (srv "alpha", None) ∧
  removal_error abg (srv "beta") = Some None ∧
  GetNode (after_remove abg (srv "beta")) "hello" = Returned (srv "gamma", None).
Proof. split_and!; vm_compute; reflexivity. Qed.

(** C7.  A key whose hash is above every position resolves to the owner of
    the last position, not of the first.  With the default hash and the
    nodes "a" and "b", the index is [b; a] by position, the hash of "foo"
    exceeds both, and [GetNode] returns "a". *)
Theorem C7_hash_above_all_resolves_to_last :
  hashSortedNodes ab = [1301135363; 1338736218] ∧
  crc32.ChecksumIEEE "foo" = 2356372769 ∧
  circle ab !! 1301135363 = Some "b" ∧
  circle ab !! 1338736218 = Some "a" ∧
  GetNode ab "foo" = Returned (srv "a", None).
Proof. split_and!; vm_compute; reflexivity. Qed.

(** * Further properties of the ring *)

Section RingMore.

Context {T : Type} `{Node T}.

Implicit Types (c : ConsistentHash T).

Lemma ring_ext c1 c2 :
  hashSortedNodes c1 = hashSortedNodes c2 → circle c1 = circle c2 →
  nodes c1 = nodes c2 → hash c1 = hash c2 → c1 = c2.
Proof. destruct c1, c2. simpl. by intros -> -> -> ->. Qed.

(** ** Removal *)

(** What [Remove] of a registered node computes on a ring that satisfies the
    invariant: the binary-search loop cuts exactly the node's positions. *)
Lemma Remove_registered c nd cn :
  ring_inv c → nodes c !! Key nd = Some cn →
  Remove c (Some nd) =
    Returned
      ({| hashSortedNodes := filter (.∉ virtualNodes cn) (hashSortedNodes c);
          circle := foldl (λ m v, delete v m) (circle c) (virtualNodes cn);
          nodes := delete (Key nd) (nodes c);
          hash := hash c |},
       None).
Proof.
  intros Hinv Hreg. unfold Remove. rewrite Hreg.
  pose proof (positions_of_delete _ _ _ Hreg) as Hsplit.
  pose proof (ascending_NoDup _ (inv_sorted c Hinv)) as Hnd.
  destruct (cut_positions_ascending (virtualNodes cn) (hashSortedNodes c))
    as (s & -> & Hs & Hperm); [apply Hinv | | |].
  { rewrite (inv_index c Hinv), Hsplit in Hnd. by apply NoDup_app in Hnd as (? & _ & _). }
  { intros p Hp. rewrite (inv_index c Hinv), Hsplit. apply elem_of_app. by left. }
  do 3 f_equal.
  apply ascending_unique; [done | |].
  { eapply ascending_sublist; [apply sublist_filter | apply Hinv]. }
  pose proof Hnd as Hnd0.
  rewrite Hperm in Hnd. apply NoDup_app in Hnd as (_ & Hdisj & Hnds).
  apply NoDup_Permutation; [done | by apply NoDup_filter |].
  intros p. rewrite list_elem_of_filter, Hperm, elem_of_app. split.
  - intros Hp. split; [|by right]. intros Hin. by apply (Hdisj p).
  - intros [Hnot [?|?]]; done.
Qed.

Lemma Remove_success_registered c nd c' :
  Remove c (Some nd) = Returned (c', None) → is_Some (nodes c !! Key nd).
Proof.
  unfold Remove. destruct (nodes c !! Key nd) as [cn|]; [by eexists|].
  by intros [= _].
Qed.

(** X1.  On a reachable ring [Remove] of a node that is not nil always
    returns (the slice expression of its binary-search loop never goes out of
    range), and it returns without error exactly when the node's key is
    registered. *)
Theorem X1_remove_returns c nd :
  reachable c →
  ∃ c' e, Remove c (Some nd) = Returned (c', e) ∧
    (e = None ↔ is_Some (nodes c !! Key nd)).
Proof.
  intros Hinv%reachable_inv.
  destruct (nodes c !! Key nd) as [cn|] eqn:Hreg.
  - eexists _, None. rewrite (Remove_registered c nd cn Hinv Hreg).
    split; [done|]. split; [by eexists | done].
  - exists c, (Some (NotExist (Key nd))). unfold Remove. rewrite Hreg.
    split; [done|]. split; [done | by intros [? ?]].
Qed.

(** X2.  On a reachable ring a successful [Remove] deletes exactly the node's
    own positions: the new Position Index is the old one without the
    positions of the node's registry entry, in the same order; the Position
    Map loses those positions and keeps every other entry; the Node Registry
    loses the node's key; the hash function stays. *)
Theorem X2_remove_exact c nd cn :
  reachable c → nodes c !! Key nd = Some cn →
  ∃ c', Remove c (Some nd) = Returned (c', None) ∧
    hashSortedNodes c' = filter (.∉ virtualNodes cn) (hashSortedNodes c) ∧
    (∀ p, circle c' !! p =
       if decide (p ∈ virtualNodes cn) then None else circle c !! p) ∧
    nodes c' = delete (Key nd) (nodes c) ∧
    hash c' = hash c.
Proof.
  intros Hinv%reachable_inv Hreg. eexists.
  split; [by apply Remove_registered|]. simpl.
  split_and!; [done | | done | done].
  intros p. apply lookup_foldl_delete.
Qed.

(** X3.  Removing the same node a second time returns the "not exist" error
    and changes nothing, on any ring. *)
Theorem X3_remove_twice c nd c' :
  Remove c (Some nd) = Returned (c', None) →
  Remove c' (Some nd) = Returned (c', Some (NotExist (Key nd))).
Proof.
  unfold Remove at 1. destruct (nodes c !! Key nd) as [cn|]; [|by intros [= _]].
  destruct (cut_positions _ _) as [s|]; [|done].
  intros [= <-]. unfold Remove. simpl. by rewrite lookup_delete_eq.
Qed.

(** X4.  On a reachable ring, removals of two different registered nodes
    commute: either order returns without error and leaves the same ring. *)
Theorem X4_remove_commute c a b ca cb :
  reachable c → Key a ≠ Key b →
  Remove c (Some a) = Returned (ca, None) →
  Remove c (Some b) = Returned (cb, None) →
  ∃ c', Remove ca (Some b) = Returned (c', None) ∧
    Remove cb (Some a) = Returned (c', None).
Proof.
  intros Hinv%reachable_inv Hab Ha Hb.
  pose proof (Remove_inv c _ _ _ Hinv Ha) as Hinva.
  pose proof (Remove_inv c _ _ _ Hinv Hb) as Hinvb.
  destruct (Remove_success_registered c a ca Ha) as [cna Hrega].
  destruct (Remove_success_registered c b cb Hb) as [cnb Hregb].
  rewrite (Remove_registered c a cna Hinv Hrega) in Ha.
  rewrite (Remove_registered c b cnb Hinv Hregb) in Hb.
  injection Ha as <-. injection Hb as <-.
  rewrite (Remove_registered _ b cnb Hinva), (Remove_registered _ a cna Hinvb);
    [| simpl; by rewrite lookup_delete_ne | simpl; by rewrite lookup_delete_ne].
  eexists. split; [done|]. do 2 f_equal. apply ring_ext; simpl.
  - rewrite !list_filter_filter. apply list_filter_iff. intros p. tauto.
  - apply map_eq. intros p. rewrite !lookup_foldl_delete.
    by repeat case_decide.
  - apply delete_delete.
  - done.
Qed.

(** ** Registration *)

Lemma try_replica_None h key i (circ : gmap Z string) js :
  try_replica h key i circ js = None →
  ∀ j, j ∈ js → is_Some (circ !! h (key +:+ Itoa i +:+ Itoa j)).
Proof.
  induction js as [|j0 js IH]; simpl; [by intros _ j ?%not_elem_of_nil|].
  destruct (circ !! h (key +:+ Itoa i +:+ Itoa j0)) as [owner|] eqn:Hocc; [|done].
  intros Hnone j [->|Hj]%elem_of_cons; [by rewrite Hocc | by apply IH].
Qed.

Lemma place_replicas_None h key ixs (circ : gmap Z string) vns circ' :
  place_replicas h key ixs circ vns = (circ', None) →
  ∃ i, i ∈ ixs ∧ try_replica h key i circ' (seqZ 0 3) = None.
Proof.
  revert circ vns. induction ixs as [|i ixs IH]; intros circ vns; cbn [place_replicas]; [done|].
  destruct (try_replica h key i circ (seqZ 0 3)) as [k|] eqn:Htry.
  - intros (i' & Hi' & Hnone)%IH. exists i'. split; [by right | done].
  - intros [= <-]. exists i. split; [by left | done].
Qed.

Lemma place_replicas_free h key ixs (circ : gmap Z string) vns :
  NoDup ((λ i, h (key +:+ Itoa i +:+ Itoa 0)) <$> ixs) →
  (∀ i, i ∈ ixs → circ !! h (key +:+ Itoa i +:+ Itoa 0) = None) →
  place_replicas h key ixs circ vns =
    (foldl (λ m p, <[p := key]> m) circ ((λ i, h (key +:+ Itoa i +:+ Itoa 0)) <$> ixs),
     Some (vns ++ ((λ i, h (key +:+ Itoa i +:+ Itoa 0)) <$> ixs))).
Proof.
  revert circ vns. induction ixs as [|i ixs IH]; intros circ vns Hnd Hfree.
  { simpl. by rewrite app_nil_r. }
  rewrite fmap_cons in Hnd. apply NoDup_cons in Hnd as [Hi Hnd].
  cbn [place_replicas]. change (seqZ 0 3) with [0; 1; 2]. cbn [try_replica].
  rewrite (Hfree i) by (by left). rewrite IH; [| done |].
  - rewrite fmap_cons. simpl. by rewrite <- app_assoc.
  - intros i' Hi'. rewrite lookup_insert_ne; [apply Hfree; by right|].
    intros Heq. apply Hi. rewrite Heq.
    by apply (list_elem_of_fmap_2 (λ i, h (key +:+ Itoa i +:+ Itoa 0))).
Qed.

(** X5.  A registration that returns an error leaves the Position Index and
    the Node Registry as they were and removes nothing from the Position Map;
    unless the error is the hash collision, the Position Map is unchanged
    too. *)
Theorem X5_failed_add c n v c' e :
  AddWithVirtualNode c n v = (c', Some e) →
  hashSortedNodes c' = hashSortedNodes c ∧ nodes c' = nodes c ∧
  circle c ⊆ circle c' ∧
  ((∀ key, e ≠ HashCollision key) → circle c' = circle c).
Proof.
  unfold AddWithVirtualNode. destruct n as [nd|]; [|by intros [= <- <-]].
  case_bool_decide; [by intros [= <- <-]|].
  destruct (nodes c !! Key nd); [by intros [= <- <-]|].
  destruct (place_replicas _ _ _ _ _) as [circ r] eqn:Hplace.
  apply place_replicas_spec in Hplace as (new & -> & Hnd & Hfresh & Hr).
  destruct r as [out|]; [done|]. intros [= <- <-]. simpl.
  split_and!; [done | done | | by intros Hne; destruct (Hne (Key nd))].
  apply map_subseteq_spec. intros p owner Hp.
  rewrite lookup_foldl_insert. destruct (decide (p ∈ new)) as [Hin|]; [|done].
  specialize (Hfresh p Hin). by rewrite Hp in Hfresh.
Qed.

(** X6.  On a reachable ring, registering a node whose key is already
    registered returns the "already exised" error and leaves the ring exactly
    as it was, whatever node value and replica count (at least 1) are
    given. *)
Theorem X6_duplicate_add c nd v :
  reachable c → is_Some (nodes c !! Key nd) → 1 ≤ v →
  AddWithVirtualNode c (Some nd) v = (c, Some (AlreadyExisted (Key nd))).
Proof.
  intros Hinv%reachable_inv [cn Hreg] Hv. unfold AddWithVirtualNode.
  rewrite bool_decide_eq_false_2 by lia. rewrite Hreg. f_equal.
  destruct (inv_hash c Hinv) as [Hempty|[h Hh]].
  { rewrite Hempty in Hreg. by rewrite lookup_empty in Hreg. }
  apply ring_ext; simpl; try done. by rewrite Hh.
Qed.

(** X7.  A successful registration only adds: the Node Registry gains the
    entry of the new key and keeps every other entry, the Position Index
    becomes the ascending arrangement of its old positions and the new ones,
    and the Position Map maps the new positions to the new key and is
    unchanged everywhere else.  The new positions were free before the
    call. *)
Theorem X7_add_only_adds c nd v c' :
  AddWithVirtualNode c (Some nd) v = (c', None) →
  ∃ ps,
    nodes c !! Key nd = None ∧
    nodes c' = <[Key nd := {| node := Some nd; virtualNodes := ps |}]> (nodes c) ∧
    hashSortedNodes c' ≡ₚ hashSortedNodes c ++ ps ∧
    Sorted Z.le (hashSortedNodes c') ∧
    (∀ p, p ∈ ps → circle c !! p = None) ∧
    (∀ p, circle c' !! p = if decide (p ∈ ps) then Some (Key nd) else circle c !! p).
Proof.
  intros (new & _ & Hnone & -> & _ & Hfresh & _ & _)%AddWithVirtualNode_success.
  exists new. simpl. split_and!; [done | done | | | done |].
  - apply sort_Slice_Permutation.
  - apply (Sorted_merge_sort Z.le).
  - intros p. apply lookup_foldl_insert.
Qed.

(** X8.  When a registration fails with the hash collision, some replica
    index below the requested count has all three of its candidates occupied
    in the Position Map the call leaves behind. *)
Theorem X8_collision_cause c n v c' key :
  AddWithVirtualNode c n v = (c', Some (HashCollision key)) →
  ∃ nd h i,
    n = Some nd ∧ key = Key nd ∧ hash c' = Some h ∧ 0 ≤ i < v ∧
    ∀ j, 0 ≤ j < 3 → is_Some (circle c' !! h (key +:+ Itoa i +:+ Itoa j)).
Proof.
  unfold AddWithVirtualNode. destruct n as [nd|]; [|done].
  case_bool_decide; [done|].
  destruct (nodes c !! Key nd); [done|].
  destruct (place_replicas _ _ _ _ _) as [circ [out|]] eqn:Hplace; [done|].
  intros [= <- <-]. simpl.
  apply place_replicas_None in Hplace as (i & Hi & Hnone).
  exists nd, (default crc32.ChecksumIEEE (hash c)), i.
  apply elem_of_seqZ in Hi. split_and!; [done | done | done | lia | lia |].
  intros j Hj. apply (try_replica_None _ _ _ _ _ Hnone).
  apply elem_of_seqZ. lia.
Qed.

(** X9.  When the first candidates of the replicas (retry counter 0) are
    pairwise different and free in the Position Map, a registration of an
    unregistered node succeeds without any retry: replica [i] gets the hash
    of key, [i] and [0] in decimal. *)
Theorem X9_add_without_collision c nd v :
  1 ≤ v → nodes c !! Key nd = None →
  NoDup ((λ i, default crc32.ChecksumIEEE (hash c) (Key nd +:+ Itoa i +:+ Itoa 0))
           <$> seqZ 0 v) →
  (∀ i, 0 ≤ i < v →
     circle c !! default crc32.ChecksumIEEE (hash c) (Key nd +:+ Itoa i +:+ Itoa 0)
     = None) →
  ∃ c', AddWithVirtualNode c (Some nd) v = (c', None) ∧
    nodes c' !! Key nd =
      Some {| node := Some nd;
              virtualNodes :=
                (λ i, default crc32.ChecksumIEEE (hash c) (Key nd +:+ Itoa i +:+ Itoa 0))
                  <$> seqZ 0 v |}.
Proof.
  intros Hv Hnone Hnd Hfree. unfold AddWithVirtualNode.
  rewrite bool_decide_eq_false_2 by lia. rewrite Hnone.
  rewrite place_replicas_free; [| done |].
  - eexists. split; [done|]. simpl. by rewrite lookup_insert_eq.
  - intros i Hi%elem_of_seqZ. apply Hfree. lia.
Qed.

(** ** The hash function of the ring *)

Lemma AddWithVirtualNode_hash c n v h :
  hash c = Some h → hash (AddWithVirtualNode c n v).1 = Some h.
Proof.
  intros Hh. unfold AddWithVirtualNode. destruct n as [nd|]; [|done].
  case_bool_decide; [done|].
  destruct (nodes c !! Key nd); simpl; [by rewrite Hh|].
  destruct (place_replicas _ _ _ _ _) as [circ [out|]]; simpl; by rewrite Hh.
Qed.

Lemma Remove_hash c n c' e :
  Remove c n = Returned (c', e) → hash c' = hash c.
Proof.
  unfold Remove. destruct n as [nd|]; [|done].
  destruct (nodes c !! Key nd); [|by intros [= <- _]].
  destruct (cut_positions _ _); [|done]. by intros [= <- _].
Qed.

Lemma AddWithVirtualNode_failed_registry c n v c' e :
  AddWithVirtualNode c n v = (c', Some e) → nodes c' = nodes c.
Proof.
  unfold AddWithVirtualNode. destruct n as [nd|]; [|by intros [= <- _]].
  case_bool_decide; [by intros [= <- _]|].
  destruct (nodes c !! Key nd); [by intros [= <- _]|].
  destruct (place_replicas _ _ _ _ _) as [circ [out|]]; [done|].
  by intros [= <- _].
Qed.

(** X10.  A reachable ring has no hash function only while it is exactly the
    ring [NewConsistentHash] returns: any call that changes the ring has
    installed one. *)
Theorem X10_nil_hash_only_fresh c :
  reachable c → hash c = None → c = NewConsistentHash.
Proof.
  induction 1 as [|h|c n v _ IH|c n c' e _ IH Hrem]; intros Hh.
  - done.
  - simpl in Hh. by rewrite Hh.
  - revert Hh. unfold AddWithVirtualNode. destruct n as [nd|]; [|done].
    case_bool_decide; [done|].
    destruct (nodes c !! Key nd); [done|].
    by destruct (place_replicas _ _ _ _ _) as [circ [out|]].
  - rewrite (Remove_hash _ _ _ _ Hrem) in Hh. specialize (IH Hh). subst c.
    unfold Remove in Hrem. destruct n as [nd|]; [|done].
    simpl in Hrem. rewrite lookup_empty in Hrem. by injection Hrem as <- _.
Qed.

(** X11.  Once the ring has a hash function no call replaces it: a custom
    hash is never exchanged for the default, neither by a registration
    (successful or failed) nor by a removal. *)
Theorem X11_hash_kept c h :
  hash c = Some h →
  (∀ n v, hash (AddWithVirtualNode c n v).1 = Some h) ∧
  (∀ n c' e, Remove c n = Returned (c', e) → hash c' = Some h).
Proof.
  intros Hh. split.
  - intros n v. by apply AddWithVirtualNode_hash.
  - intros n c' e Hrem. by rewrite (Remove_hash _ _ _ _ Hrem).
Qed.

(** X12.  On every reachable ring the positions of a registered node are
    derived from its key with the ring's hash function: the position at
    index [n] of its entry is the hash of key, [n] and some retry counter
    below 3 in decimal.  This holds as long as the node stays registered,
    whatever is registered or removed meanwhile. *)
Theorem X12_positions_from_key c key cn :
  reachable c → nodes c !! key = Some cn →
  ∃ h, hash c = Some h ∧
    ∀ (n : nat) p, virtualNodes cn !! n = Some p →
      ∃ j, 0 ≤ j < 3 ∧ p = h (key +:+ Itoa (Z.of_nat n) +:+ Itoa j).
Proof.
  intros Hreach. revert key cn.
  induction Hreach as [|h|c n v _ IH|c n c' e _ IH Hrem]; intros key cn.
  - simpl. by rewrite lookup_empty.
  - simpl. by rewrite lookup_empty.
  - destruct (AddWithVirtualNode c n v) as [c' [e|]] eqn:Hadd; simpl.
    + rewrite (AddWithVirtualNode_failed_registry _ _ _ _ _ Hadd).
      intros (h & Hh & Hpos)%IH. exists h. split; [|done].
      by rewrite <- (AddWithVirtualNode_hash c n v h Hh), Hadd.
    + destruct n as [nd|]; [|done].
      apply AddWithVirtualNode_success in Hadd
        as (new & _ & _ & -> & _ & _ & Hlen & Hat). simpl.
      destruct (decide (key = Key nd)) as [->|Hkey].
      * rewrite lookup_insert_eq. intros [= <-]. simpl.
        eexists. split; [done|]. intros m p Hp.
        apply lookup_lt_Some in Hp as Hm.
        specialize (Hat m (0 + Z.of_nat m)).
        rewrite lookup_seqZ_lt, Hp in Hat by lia. specialize (Hat eq_refl).
        apply try_replica_Some in Hat as (k & j & Hj & -> & _).
        apply lookup_seqZ in Hj as [-> Hk].
        exists (0 + Z.of_nat k). split; [lia|]. by rewrite !Z.add_0_l.
      * rewrite lookup_insert_ne by done.
        intros (h & Hh & Hpos)%IH. exists h. split; [by rewrite Hh | done].
  - rewrite (Remove_hash _ _ _ _ Hrem).
    unfold Remove in Hrem. destruct n as [nd|]; [|done].
    destruct (nodes c !! Key nd); [|injection Hrem as <- _; by apply IH].
    destruct (cut_positions _ _); [|done]. injection Hrem as <- _. simpl.
    intros [_ Hcn]%lookup_delete_Some. by apply IH.
Qed.

(** ** Lookup *)

Lemma ascending_last_max (s : list Z) q x :
  StronglySorted Z.lt s → last s = Some q → x ∈ s → x ≤ q.
Proof.
  intros Hs Hq [m Hm]%list_elem_of_lookup_1. rewrite last_lookup in Hq.
  apply lookup_lt_Some in Hm as Hlt.
  apply (ascending_lookup_le s m (pred (length s)) x q Hs Hm Hq). lia.
Qed.

(** The selection rule yields the smallest entry at least [h] whenever that
    entry is not the last one. *)
Lemma selects_found idx h p q :
  least_at_least idx h p → last idx ≠ Some p → selects idx h q → q = p.
Proof.
  intros (Hin & Hle & Hmin) Hlast Hsel.
  assert (∀ p', least_at_least idx h p' → p' = p) as Huniq.
  { intros p' (Hin' & Hle' & Hmin').
    specialize (Hmin p' Hin' Hle'). specialize (Hmin' p Hin Hle). lia. }
  destruct Hsel as [p' Hp' _|p' q Hp' Hl _|q Hall _].
  - by apply Huniq.
  - apply Huniq in Hp' as ->. done.
  - specialize (Hall p Hin). lia.
Qed.

(** X13.  On a reachable ring [GetNode] never panics, and it returns either a
    node that is not nil together with no error, which happens exactly when
    some node is registered, or no node together with the "node size is 0"
    error. *)
Theorem X13_get_node_shape c key :
  reachable c →
  (nodes c = ∅ ∧ GetNode c key = Returned (None, Some NodeSizeIsZero)) ∨
  (nodes c ≠ ∅ ∧ ∃ nd, GetNode c key = Returned (Some nd, None)).
Proof.
  intros Hinv%reachable_inv.
  destruct (decide (nodes c = ∅)) as [Hempty|Hne].
  - left. split; [done|]. unfold GetNode. by rewrite Hempty, map_size_empty.
  - right. split; [done|].
    destruct (GetNode_registered c key Hinv Hne)
      as (h & p & owner & cn & nd & _ & _ & _ & _ & _ & _ & Hget).
    by exists nd.
Qed.

(** X14.  After a successful [Remove] no key resolves to the removed node:
    whatever [GetNode] returns afterwards has another key. *)
Theorem X14_removed_node_not_returned c nd c' key nd' e :
  reachable c → Remove c (Some nd) = Returned (c', None) →
  GetNode c' key = Returned (Some nd', e) → Key nd' ≠ Key nd.
Proof.
  intros Hinv%reachable_inv Hrem Hget.
  pose proof (Remove_inv _ _ _ _ Hinv Hrem) as Hinv'.
  assert (nodes c' !! Key nd = None) as Hgone.
  { unfold Remove in Hrem. destruct (nodes c !! Key nd); [|done].
    destruct (cut_positions _ _); [|done]. injection Hrem as <-.
    simpl. apply lookup_delete_eq. }
  destruct (decide (nodes c' = ∅)) as [Hempty|Hne].
  { unfold GetNode in Hget. by rewrite Hempty, map_size_empty in Hget. }
  destruct (GetNode_registered c' key Hinv' Hne)
    as (h & p & owner & cn & nd0 & _ & _ & _ & Hreg & _ & Hkey & Hget0).
  rewrite Hget0 in Hget. injection Hget as -> _.
  intros Heq. by rewrite <- Hkey, Heq, Hgone in Hreg.
Qed.

(** X15.  On a reachable ring whose registry is empty, after one successful
    registration every key resolves to the node just registered. *)
Theorem X15_single_node c nd v c' key :
  reachable c → nodes c = ∅ →
  AddWithVirtualNode c (Some nd) v = (c', None) →
  GetNode c' key = Returned (Some nd, None).
Proof.
  intros Hinv%reachable_inv Hempty Hadd.
  pose proof (AddWithVirtualNode_inv c (Some nd) v Hinv) as Hinv'.
  rewrite Hadd in Hinv'. simpl in Hinv'.
  apply AddWithVirtualNode_success in Hadd as (new & _ & _ & -> & _).
  destruct (GetNode_registered _ key Hinv')
    as (h & p & owner & cn & nd0 & _ & _ & _ & Hreg & Hnd & _ & Hget).
  { simpl. apply insert_non_empty. }
  simpl in Hreg. rewrite Hempty in Hreg.
  apply lookup_insert_Some in Hreg as [[_ <-]|[_ Hreg]].
  - simpl in Hnd. injection Hnd as <-. done.
  - by rewrite lookup_empty in Hreg.
Qed.

(** X16.  What a removal keeps.  On a reachable ring, let [p] be the smallest
    position at least the hash of a key.  When [p] survives a successful
    [Remove] (it is not a position of the removed node) and is not the
    largest position that survives, the key resolves to the same node after
    the removal as before, the owner of [p]. *)
Theorem X16_remove_keeps_inner_hits c nd c' h key p :
  reachable c → Remove c (Some nd) = Returned (c', None) →
  hash c = Some h →
  least_at_least (hashSortedNodes c) (h key) p →
  p ∈ hashSortedNodes c' → last (hashSortedNodes c') ≠ Some p →
  ∃ nd', GetNode c key = Returned (Some nd', None) ∧
    GetNode c' key = Returned (Some nd', None) ∧
    circle c !! p = Some (Key nd').
Proof.
  intros Hinv%reachable_inv Hrem Hh Hleast Hp' Hlast'.
  pose proof (Remove_inv _ _ _ _ Hinv Hrem) as Hinv'.
  destruct (Remove_success_registered c nd c' Hrem) as [cnx Hregx].
  rewrite (Remove_registered c nd cnx Hinv Hregx) in Hrem. injection Hrem as <-.
  simpl in Hp', Hlast'. apply list_elem_of_filter in Hp' as Hp. destruct Hp as [Hpx Hp].
  assert (last (hashSortedNodes c) ≠ Some p) as Hlast.
  { intros Hl. destruct (last (filter _ (hashSortedNodes c))) as [q|] eqn:Hq.
    - apply Hlast'. f_equal.
      assert (q ∈ filter (.∉ virtualNodes cnx) (hashSortedNodes c)) as Hqin.
      { rewrite last_lookup in Hq. by eapply list_elem_of_lookup_2. }
      pose proof (ascending_last_max _ q p (inv_sorted _ Hinv') Hq Hp').
      apply list_elem_of_filter in Hqin as [_ Hqin].
      pose proof (ascending_last_max _ p q (inv_sorted _ Hinv) Hl Hqin). lia.
    - apply last_None in Hq. rewrite Hq in Hp'. by apply not_elem_of_nil in Hp'. }
  assert (nodes c ≠ ∅) as Hne by (intros Hempty; by rewrite Hempty, lookup_empty in Hregx).
  destruct (GetNode_registered c key Hinv Hne)
    as (h0 & p0 & owner & cn & nd0 & Hh0 & Hsel & Hcirc & Hreg & Hnd & Hkey & Hget).
  rewrite Hh in Hh0. injection Hh0 as <-.
  apply (selects_found _ _ p) in Hsel as ->; [| done | done].
  set (c' := {| hashSortedNodes := filter (.∉ virtualNodes cnx) (hashSortedNodes c);
                circle := foldl (λ m v, delete v m) (circle c) (virtualNodes cnx);
                nodes := delete (Key nd) (nodes c); hash := hash c |}) in *.
  assert (nodes c' ≠ ∅) as Hne'.
  { destruct (ring_inv_owner c' p Hinv' Hp') as (k & cn' & _ & _ & Hk & _).
    intros Hempty. by rewrite Hempty, lookup_empty in Hk. }
  destruct (GetNode_registered c' key Hinv' Hne')
    as (h1 & p1 & owner1 & cn1 & nd1 & Hh1 & Hsel1 & Hcirc1 & Hreg1 & Hnd1 & Hkey1 & Hget1).
  simpl in Hh1. rewrite Hh in Hh1. injection Hh1 as <-.
  apply (selects_found _ _ p) in Hsel1 as ->; [| | done].
  - simpl in Hcirc1, Hreg1. rewrite lookup_foldl_delete, decide_False, Hcirc in Hcirc1 by done.
    injection Hcirc1 as <-. apply lookup_delete_Some in Hreg1 as [_ Hreg1].
    rewrite Hreg in Hreg1. injection Hreg1 as <-.
    rewrite Hnd in Hnd1. injection Hnd1 as <-.
    exists nd0. split_and!; [done | done | by rewrite Hkey].
  - destruct Hleast as (_ & Hle & Hmin). split_and!; [done | done |].
    intros q [_ Hq]%list_elem_of_filter. by apply Hmin.
Qed.

(** X17.  On any ring, reachable or not, the slice access of [GetNode] at the
    index [getPosition] returns is in range exactly when the Position Index
    is not empty; on an empty index [getPosition] returns -1. *)
Theorem X17_get_position_in_range c hv :
  (hashSortedNodes c ≠ [] →
     0 ≤ getPosition c hv < Z.of_nat (length (hashSortedNodes c)) ∧
     is_Some (index (hashSortedNodes c) (getPosition c hv))) ∧
  (hashSortedNodes c = [] →
     getPosition c hv = -1 ∧ index (hashSortedNodes c) (getPosition c hv) = None).
Proof.
  split.
  - intros Hne.
    assert (0 < length (hashSortedNodes c))%nat as Hpos
      by (destruct (hashSortedNodes c); [done | simpl; lia]).
    assert (0 ≤ getPosition c hv < Z.of_nat (length (hashSortedNodes c))) as Hr.
    { unfold getPosition.
      pose proof (search_loop_range (Z.to_nat (Z.of_nat (length (hashSortedNodes c))))
        (at_least (hashSortedNodes c) hv) 0 (Z.of_nat (length (hashSortedNodes c)))
        ltac:(lia)) as Hrange.
      fold (Search (Z.of_nat (length (hashSortedNodes c))) (at_least (hashSortedNodes c) hv))
        in Hrange.
      cbn zeta. repeat case_bool_decide; lia. }
    split; [done|]. rewrite index_nonneg by lia. apply lookup_lt_is_Some_2. lia.
  - intros Hnil. unfold getPosition. rewrite Hnil. done.
Qed.

(** ** The three structures agree *)

(** X18.  On a reachable ring every registry entry is well formed: it is
    stored under the key of its node, the node is not nil, it lists at least
    one position and none twice, and each listed position is in the Position
    Index and mapped to the entry's key by the Position Map. *)
Theorem X18_registry_entry c key cn :
  reachable c → nodes c !! key = Some cn →
  (∃ nd, node cn = Some nd ∧ Key nd = key) ∧
  virtualNodes cn ≠ [] ∧ NoDup (virtualNodes cn) ∧
  ∀ p, p ∈ virtualNodes cn →
    p ∈ hashSortedNodes c ∧ circle c !! p = Some key.
Proof.
  intros Hinv%reachable_inv Hreg.
  destruct (inv_entry c Hinv key cn Hreg) as (Hnd & Hne & Hcirc).
  pose proof (ascending_NoDup _ (inv_sorted c Hinv)) as Hnodup.
  rewrite (inv_index c Hinv), (positions_of_delete _ _ _ Hreg) in Hnodup.
  apply NoDup_app in Hnodup as (Hnodup & _ & _).
  split_and!; [done..|]. intros p Hp. split; [|by apply Hcirc].
  rewrite (inv_index c Hinv). apply elem_of_positions_of. by exists key, cn.
Qed.

(** X19.  On a reachable ring the Position Index holds exactly the positions
    the registry entries list, and no position is listed by two entries:
    every position of the index has one owner, the key the Position Map gives
    for it. *)
Theorem X19_index_positions_owned c p :
  reachable c →
  (p ∈ hashSortedNodes c ↔
     ∃ key cn, nodes c !! key = Some cn ∧ p ∈ virtualNodes cn) ∧
  (∀ k1 cn1 k2 cn2,
     nodes c !! k1 = Some cn1 → nodes c !! k2 = Some cn2 →
     p ∈ virtualNodes cn1 → p ∈ virtualNodes cn2 →
     k1 = k2 ∧ circle c !! p = Some k1).
Proof.
  intros Hinv%reachable_inv. split.
  - rewrite (inv_index c Hinv). apply elem_of_positions_of.
  - intros k1 cn1 k2 cn2 Hreg1 Hreg2 Hp1 Hp2.
    destruct (inv_entry c Hinv k1 cn1 Hreg1) as (_ & _ & Hcirc1).
    destruct (inv_entry c Hinv k2 cn2 Hreg2) as (_ & _ & Hcirc2).
    specialize (Hcirc1 p Hp1). specialize (Hcirc2 p Hp2).
    split; [congruence | done].
Qed.

End RingMore.

(** ** The further properties on sample rings *)

Lemma returned_error {T : Type} (r : ConsistentHash T * option error) e :
  r.2 = Some e → r = (r.1, Some e).
Proof. destruct r as [c e']. simpl. by intros ->. Defined.

Lemma removed_no_error (c : ConsistentHash server) n :
  removal_error c n = Some None → Remove c n = Returned (after_remove c n, None).
Proof.
  unfold removal_error, after_remove.
  destruct (Remove c n) as [[c' e]|]; [|done]. by intros [= ->].
Defined.

Lemma reachable_custom_hash : reachable (NewConsistentWithCustomHash (T:=server) (Some const_hash)).
Proof. apply reach_custom. Defined.

Lemma X1_witness :
  reachable abg ∧
  ∃ c' e, Remove abg (srv "alpha") = Returned (c', e) ∧
    (e = None ↔ is_Some (nodes abg !! "alpha")).
Proof.
  split; [exact reachable_abg|].
  exact (X1_remove_returns abg {| addr := "alpha" |} reachable_abg).
Defined.

Lemma X2_witness :
  let cn := {| node := srv "beta"; virtualNodes := [4059785036] |} in
  reachable abg ∧ nodes abg !! "beta" = Some cn ∧
  ∃ c', Remove abg (srv "beta") = Returned (c', None) ∧
    hashSortedNodes c' = filter (.∉ virtualNodes cn) (hashSortedNodes abg) ∧
    (∀ p, circle c' !! p =
       if decide (p ∈ virtualNodes cn) then None else circle abg !! p) ∧
    nodes c' = delete "beta" (nodes abg) ∧
    hash c' = hash abg.
Proof.
  intros cn.
  assert (nodes abg !! "beta" = Some cn) as Hreg by (vm_compute; reflexivity).
  split; [exact reachable_abg|]. split; [exact Hreg|].
  exact (X2_remove_exact abg {| addr := "beta" |} cn reachable_abg Hreg).
Defined.

Lemma X3_witness :
  let c' := after_remove abg (srv "beta") in
  Remove abg (srv "beta") = Returned (c', None) ∧
  Remove c' (srv "beta") = Returned (c', Some (NotExist "beta")).
Proof.
  intros c'.
  assert (Remove abg (srv "beta") = Returned (c', None)) as Hrem
    by (apply removed_no_error; vm_compute; reflexivity).
  split; [exact Hrem|].
  exact (X3_remove_twice abg {| addr := "beta" |} c' Hrem).
Defined.

Lemma X4_witness :
  let ca := after_remove abg (srv "alpha") in
  let cb := after_remove abg (srv "beta") in
  reachable abg ∧ Key {| addr := "alpha" |} ≠ Key {| addr := "beta" |} ∧
  Remove abg (srv "alpha") = Returned (ca, None) ∧
  Remove abg (srv "beta") = Returned (cb, None) ∧
  ∃ c', Remove ca (srv "beta") = Returned (c', None) ∧
    Remove cb (srv "alpha") = Returned (c', None).
Proof.
  intros ca cb.
  assert (Key {| addr := "alpha" |} ≠ Key {| addr := "beta" |}) as Hab by done.
  assert (Remove abg (srv "alpha") = Returned (ca, None)) as Ha
    by (apply removed_no_error; vm_compute; reflexivity).
  assert (Remove abg (srv "beta") = Returned (cb, None)) as Hb
    by (apply removed_no_error; vm_compute; reflexivity).
  split; [exact reachable_abg|]. split; [exact Hab|].
  split; [exact Ha|]. split; [exact Hb|].
  exact (X4_remove_commute abg {| addr := "alpha" |} {| addr := "beta" |} ca cb
           reachable_abg Hab Ha Hb).
Defined.

Lemma X5_witness :
  let c := NewConsistentWithCustomHash (Some const_hash) in
  let c' := (AddWithVirtualNode c (srv "a") 2).1 in
  AddWithVirtualNode c (srv "a") 2 = (c', Some (HashCollision "a")) ∧
  hashSortedNodes c' = hashSortedNodes c ∧ nodes c' = nodes c ∧
  circle c ⊆ circle c' ∧
  ((∀ key, HashCollision "a" ≠ HashCollision key) → circle c' = circle c).
Proof.
  intros c c'.
  assert (AddWithVirtualNode c (srv "a") 2 = (c', Some (HashCollision "a"))) as Hadd
    by (apply returned_error; vm_compute; reflexivity).
  split; [exact Hadd|].
  exact (X5_failed_add c (srv "a") 2 c' (HashCollision "a") Hadd).
Defined.

Lemma X6_witness :
  reachable abg ∧ is_Some (nodes abg !! "alpha") ∧ 1 ≤ 4 ∧
  AddWithVirtualNode abg (srv "alpha") 4 = (abg, Some (AlreadyExisted "alpha")).
Proof.
  assert (is_Some (nodes abg !! "alpha")) as Hreg by (vm_compute; eauto).
  assert (1 ≤ 4) as Hv by lia.
  split; [exact reachable_abg|]. split; [exact Hreg|]. split; [exact Hv|].
  exact (X6_duplicate_add abg {| addr := "alpha" |} 4 reachable_abg Hreg Hv).
Defined.

Lemma X7_witness :
  let nd := {| addr := "delta" |} in
  let c' := (AddWithVirtualNode abg (Some nd) 2).1 in
  AddWithVirtualNode abg (Some nd) 2 = (c', None) ∧
  ∃ ps,
    nodes abg !! Key nd = None ∧
    nodes c' = <[Key nd := {| node := Some nd; virtualNodes := ps |}]> (nodes abg) ∧
    hashSortedNodes c' ≡ₚ hashSortedNodes abg ++ ps ∧
    Sorted Z.le (hashSortedNodes c') ∧
    (∀ p, p ∈ ps → circle abg !! p = None) ∧
    (∀ p, circle c' !! p = if decide (p ∈ ps) then Some (Key nd) else circle abg !! p).
Proof.
  intros nd c'.
  assert (AddWithVirtualNode abg (Some nd) 2 = (c', None)) as Hadd
    by (apply returned_no_error; vm_compute; reflexivity).
  split; [exact Hadd|].
  exact (X7_add_only_adds abg nd 2 c' Hadd).
Defined.

Lemma X8_witness :
  let c := NewConsistentWithCustomHash (Some const_hash) in
  let c' := (AddWithVirtualNode c (srv "a") 2).1 in
  AddWithVirtualNode c (srv "a") 2 = (c', Some (HashCollision "a")) ∧
  ∃ nd h i,
    srv "a" = Some nd ∧ "a" = Key nd ∧ hash c' = Some h ∧ 0 ≤ i < 2 ∧
    ∀ j, 0 ≤ j < 3 → is_Some (circle c' !! h ("a" +:+ Itoa i +:+ Itoa j)).
Proof.
  intros c c'.
  assert (AddWithVirtualNode c (srv "a") 2 = (c', Some (HashCollision "a"))) as Hadd
    by (apply returned_error; vm_compute; reflexivity).
  split; [exact Hadd|].
  exact (X8_collision_cause c (srv "a") 2 c' "a" Hadd).
Defined.

Lemma X9_witness :
  let c := NewConsistentHash in
  let nd := {| addr := "alpha" |} in
  let first := λ i, default crc32.ChecksumIEEE (hash c) (Key nd +:+ Itoa i +:+ Itoa 0) in
  1 ≤ 3 ∧ nodes c !! Key nd = None ∧
  NoDup (first <$> seqZ 0 3) ∧
  (∀ i, 0 ≤ i < 3 → circle c !! first i = None) ∧
  ∃ c', AddWithVirtualNode c (Some nd) 3 = (c', None) ∧
    nodes c' !! Key nd =
      Some {| node := Some nd; virtualNodes := first <$> seqZ 0 3 |}.
Proof.
  intros c nd first.
  assert (1 ≤ 3) as Hv by lia.
  assert (nodes c !! Key nd = None) as Hnone by reflexivity.
  assert (NoDup (first <$> seqZ 0 3)) as Hnd.
  { apply (bool_decide_unpack _). vm_compute. exact I. }
  assert (∀ i, 0 ≤ i < 3 → circle c !! first i = None) as Hfree.
  { intros i _. apply lookup_empty. }
  split; [exact Hv|]. split; [exact Hnone|]. split; [exact Hnd|]. split; [exact Hfree|].
  exact (X9_add_without_collision c nd 3 Hv Hnone Hnd Hfree).
Defined.

Lemma X10_witness :
  let c := (AddWithVirtualNode (NewConsistentHash (T:=server)) (srv "a") 0).1 in
  reachable c ∧ hash c = None ∧ c = NewConsistentHash.
Proof.
  intros c.
  assert (reachable c) as Hc by (apply reach_add, reach_new).
  assert (hash c = None) as Hh by reflexivity.
  split; [exact Hc|]. split; [exact Hh|].
  exact (X10_nil_hash_only_fresh c Hc Hh).
Defined.

Lemma X11_witness :
  let c := NewConsistentWithCustomHash (T:=server) (Some const_hash) in
  hash c = Some const_hash ∧
  (∀ n v, hash (AddWithVirtualNode c n v).1 = Some const_hash) ∧
  (∀ n c' e, Remove c n = Returned (c', e) → hash c' = Some const_hash).
Proof.
  intros c.
  assert (hash c = Some const_hash) as Hh by reflexivity.
  split; [exact Hh|].
  exact (X11_hash_kept c const_hash Hh).
Defined.

Lemma X12_witness :
  let cn := {| node := srv "alpha"; virtualNodes := [2018627429] |} in
  reachable abg ∧ nodes abg !! "alpha" = Some cn ∧
  ∃ h, hash abg = Some h ∧
    ∀ (n : nat) p, virtualNodes cn !! n = Some p →
      ∃ j, 0 ≤ j < 3 ∧ p = h ("alpha" +:+ Itoa (Z.of_nat n) +:+ Itoa j).
Proof.
  intros cn.
  assert (nodes abg !! "alpha" = Some cn) as Hreg by (vm_compute; reflexivity).
  split; [exact reachable_abg|]. split; [exact Hreg|].
  exact (X12_positions_from_key abg "alpha" cn reachable_abg Hreg).
Defined.

Lemma X13_witness :
  reachable abg ∧
  ((nodes abg = ∅ ∧ GetNode abg "hello" = Returned (None, Some NodeSizeIsZero)) ∨
   (nodes abg ≠ ∅ ∧ ∃ nd, GetNode abg "hello" = Returned (Some nd, None))).
Proof.
  split; [exact reachable_abg|].
  exact (X13_get_node_shape abg "hello" reachable_abg).
Defined.

Lemma X14_witness :
  let c' := after_remove abg (srv "beta") in
  reachable abg ∧ Remove abg (srv "beta") = Returned (c', None) ∧
  GetNode c' "hello" = Returned (srv "gamma", None) ∧
  Key {| addr := "gamma" |} ≠ Key {| addr := "beta" |}.
Proof.
  intros c'.
  assert (Remove abg (srv "beta") = Returned (c', None)) as Hrem
    by (apply removed_no_error; vm_compute; reflexivity).
  assert (GetNode c' "hello" = Returned (srv "gamma", None)) as Hget
    by (vm_compute; reflexivity).
  split; [exact reachable_abg|]. split; [exact Hrem|]. split; [exact Hget|].
  exact (X14_removed_node_not_returned abg {| addr := "beta" |} c' "hello"
           {| addr := "gamma" |} None reachable_abg Hrem Hget).
Defined.

Lemma X15_witness :
  let c := NewConsistentHash in
  let nd := {| addr := "alpha" |} in
  let c' := (AddWithVirtualNode c (Some nd) 3).1 in
  reachable c ∧ nodes c = ∅ ∧
  AddWithVirtualNode c (Some nd) 3 = (c', None) ∧
  GetNode c' "hello" = Returned (Some nd, None).
Proof.
  intros c nd c'.
  assert (AddWithVirtualNode c (Some nd) 3 = (c', None)) as Hadd
    by (apply returned_no_error; vm_compute; reflexivity).
  split; [apply reach_new|]. split; [reflexivity|]. split; [exact Hadd|].
  exact (X15_single_node c nd 3 c' "hello" reach_new eq_refl Hadd).
Defined.

Lemma X16_witness :
  let c' := after_remove abg (srv "beta") in
  reachable abg ∧ Remove abg (srv "beta") = Returned (c', None) ∧
  hash abg = Some crc32.ChecksumIEEE ∧
  least_at_least (hashSortedNodes abg) (crc32.ChecksumIEEE "user:8") 145836672 ∧
  145836672 ∈ hashSortedNodes c' ∧ last (hashSortedNodes c') ≠ Some 145836672 ∧
  ∃ nd', GetNode abg "user:8" = Returned (Some nd', None) ∧
    GetNode c' "user:8" = Returned (Some nd', None) ∧
    circle abg !! 145836672 = Some (Key nd').
Proof.
  intros c'.
  assert (least_at_least (hashSortedNodes abg) (crc32.ChecksumIEEE "user:8") 145836672)
    as Hleast.
  { rewrite abg_index. split_and!.
    - by left.
    - vm_compute. by intros ?.
    - intros q Hq _. repeat (apply elem_of_cons in Hq as [->|Hq]); [lia..|].
      by apply not_elem_of_nil in Hq. }
  assert (hashSortedNodes c' = [145836672; 2018627429]) as Hidx by (vm_compute; reflexivity).
  assert (145836672 ∈ hashSortedNodes c') as Hin by (rewrite Hidx; left).
  assert (last (hashSortedNodes c') ≠ Some 145836672) as Hlast
    by (rewrite Hidx; simpl; congruence).
  assert (Remove abg (srv "beta") = Returned (c', None)) as Hrem
    by (apply removed_no_error; vm_compute; reflexivity).
  assert (hash abg = Some crc32.ChecksumIEEE) as Hh by reflexivity.
  split; [exact reachable_abg|]. split; [exact Hrem|]. split; [exact Hh|].
  split; [exact Hleast|]. split; [exact Hin|]. split; [exact Hlast|].
  exact (X16_remove_keeps_inner_hits abg {| addr := "beta" |} c' crc32.ChecksumIEEE
           "user:8" 145836672 reachable_abg Hrem Hh Hleast Hin Hlast).
Defined.

Lemma X17_witness :
  (hashSortedNodes abg ≠ [] →
     0 ≤ getPosition abg 7 < Z.of_nat (length (hashSortedNodes abg)) ∧
     is_Some (index (hashSortedNodes abg) (getPosition abg 7))) ∧
  (hashSortedNodes abg = [] →
     getPosition abg 7 = -1 ∧ index (hashSortedNodes abg) (getPosition abg 7) = None).
Proof. exact (X17_get_position_in_range abg 7). Defined.

Lemma X18_witness :
  let cn := {| node := srv "alpha"; virtualNodes := [2018627429] |} in
  reachable abg ∧ nodes abg !! "alpha" = Some cn ∧
  (∃ nd, node cn = Some nd ∧ Key nd = "alpha") ∧
  virtualNodes cn ≠ [] ∧ NoDup (virtualNodes cn) ∧
  ∀ p, p ∈ virtualNodes cn →
    p ∈ hashSortedNodes abg ∧ circle abg !! p = Some "alpha".
Proof.
  intros cn.
  assert (nodes abg !! "alpha" = Some cn) as Hreg by (vm_compute; reflexivity).
  split; [exact reachable_abg|]. split; [exact Hreg|].
  exact (X18_registry_entry abg "alpha" cn reachable_abg Hreg).
Defined.

Lemma X19_witness :
  reachable abg ∧
  (2018627429 ∈ hashSortedNodes abg ↔
     ∃ key cn, nodes abg !! key = Some cn ∧ 2018627429 ∈ virtualNodes cn) ∧
  (∀ k1 cn1 k2 cn2,
     nodes abg !! k1 = Some cn1 → nodes abg !! k2 = Some cn2 →
     2018627429 ∈ virtualNodes cn1 → 2018627429 ∈ virtualNodes cn2 →
     k1 = k2 ∧ circle abg !! 2018627429 = Some k1).
Proof.
  split; [exact reachable_abg|].
  exact (X19_index_positions_owned abg 2018627429 reachable_abg).
Defined.
